(** * Copy Parameter (pyRevit push button): a shallow embedding of [script.py]

    The script copies parameter values by name from one source element of a
    Revit document to a list of target elements.  The embedding keeps the
    script's helper functions under their own names and makes the host
    document an explicit store that the helpers read and write. *)

From Stdlib Require Import ZArith String Ascii List Bool Lia.
From Stdlib Require Import Floats.PrimFloat.
From stdpp Require Import gmap strings list fin_maps sorting.

(** ** Text: the built-ins [strip] and [lower]

    Names are the host's unicode strings.  The script touches them only
    through the runtime's [unicode.strip()] and [unicode.lower()], whose
    tables are not part of the script; what the script relies on is that
    trimming and lower-casing are idempotent, that they commute, and that
    lower-casing keeps a non-empty string non-empty. *)

Class Text := {
  strip : string → string;
  lower : string → string;
  strip_idem : ∀ s, strip (strip s) = strip s;
  lower_idem : ∀ s, lower (lower s) = lower s;
  strip_lower : ∀ s, strip (lower s) = lower (strip s);
  lower_empty : ∀ s, lower s = "" ↔ s = "";
}.

(** *** An instance for plain ASCII text

    Not part of the script and not a model of the runtime's tables: an
    instance of [Text] that trims blanks and control characters 9 to 13
    and lower-cases the letters A to Z, which is what the built-ins do on
    names written in printable ASCII.  It shows that the laws can be met
    and serves to run the script on the example documents, whose names
    are all of that kind.  The theorems do not depend on it: they hold
    for every [Text]. *)

Definition ascii_is_space (c : ascii) : bool :=
  let n := nat_of_ascii c in
  ((9 <=? n) && (n <=? 13)) || (n =? 32).

Definition ascii_lower_char (c : ascii) : ascii :=
  let n := nat_of_ascii c in
  if (65 <=? n) && (n <=? 90) then ascii_of_nat (n + 32) else c.

Fixpoint ascii_lower (s : string) : string :=
  match s with
  | EmptyString => EmptyString
  | String c r => String (ascii_lower_char c) (ascii_lower r)
  end.

Fixpoint ascii_lstrip (s : string) : string :=
  match s with
  | EmptyString => EmptyString
  | String c r => if ascii_is_space c then ascii_lstrip r else s
  end.

Fixpoint ascii_rstrip (s : string) : string :=
  match s with
  | EmptyString => EmptyString
  | String c r =>
      match ascii_rstrip r with
      | EmptyString => if ascii_is_space c then EmptyString else String c EmptyString
      | r' => String c r'
      end
  end.

Definition ascii_strip (s : string) : string := ascii_rstrip (ascii_lstrip s).

Definition ascii_text : Text.
Proof.
  refine {| strip := ascii_strip; lower := ascii_lower |}.
  - assert (∀ s, ascii_rstrip (ascii_rstrip s) = ascii_rstrip s) as Hrr.
    { induction s as [|c r IH]; simpl; [done|].
      destruct (ascii_rstrip r) as [|c' r'] eqn:E.
      - destruct (ascii_is_space c) eqn:Ec; simpl; [done|]. by rewrite Ec.
      - simpl in *. by rewrite IH. }
    assert (∀ s, ascii_lstrip s = "" ∨ ∃ c r, ascii_lstrip s = String c r ∧ ascii_is_space c = false)
      as Hhead.
    { induction s as [|c r IH]; simpl; [by left|].
      destruct (ascii_is_space c) eqn:Ec; [done|]. right. eauto. }
    intros s. unfold ascii_strip.
    destruct (Hhead s) as [->|(c & r & -> & Ec)]; [done|].
    assert (ascii_lstrip (ascii_rstrip (String c r)) = ascii_rstrip (String c r)) as ->.
    { simpl. rewrite Ec. destruct (ascii_rstrip r); simpl; by rewrite Ec. }
    apply Hrr.
  - assert (∀ c, ascii_lower_char (ascii_lower_char c) = ascii_lower_char c) as Hll
      by (by intros [[] [] [] [] [] [] [] []]).
    induction s as [|c r IH]; simpl; [done|]. by rewrite Hll, IH.
  - assert (∀ c, ascii_is_space (ascii_lower_char c) = ascii_is_space c) as Hsl
      by (by intros [[] [] [] [] [] [] [] []]).
    assert (∀ s, ascii_lstrip (ascii_lower s) = ascii_lower (ascii_lstrip s)) as Hl.
    { induction s as [|c r IH]; simpl; [done|].
      rewrite Hsl. by destruct (ascii_is_space c). }
    assert (∀ s, ascii_rstrip (ascii_lower s) = ascii_lower (ascii_rstrip s)) as Hr.
    { induction s as [|c r IH]; simpl; [done|].
      rewrite IH, Hsl.
      destruct (ascii_rstrip r); simpl; [by destruct (ascii_is_space c)|done]. }
    intros s. unfold ascii_strip. by rewrite Hl, Hr.
  - intros s. destruct s; simpl; split; congruence.
Defined.

(** [t in s] on strings: [t] occurs somewhere in [s]. *)
Fixpoint contains (t s : string) : bool :=
  String.prefix t s ||
  match s with
  | EmptyString => false
  | String _ r => contains t r
  end.

(** ** The host object model (the part of [DB] the script uses) *)

Module DB.
Module StorageType.
Inductive t := None | Integer | Double | String | ElementId.

#[global] Instance eq_dec : EqDecision t.
Proof. solve_decision. Defined.
End StorageType.

Module ElementId.
(** Element ids are integers; the host's sentinel is -1. *)
Definition InvalidElementId : Z := (-1)%Z.
End ElementId.
End DB.

Section Script.
Context {text : Text}.

(** ** CONFIG *)

Definition BLOCKED_NAMES : list string := ["Bauteilebene"; "Arbeitsebene"].

(** ** HELPERS that do not touch the document *)

(** [(s or u"").strip()]; a missing name is the empty string. *)
Definition _clean (s : option string) : string :=
  strip (default "" s).

(** The [for b in BLOCKED_NAMES] scan of [_is_blocked], for the already
    normalised and lower-cased name [n]. *)
Fixpoint blocked_scan (n : string) (bs : list string) : bool :=
  match bs with
  | [] => false
  | b :: bs' =>
      if String.eqb n (lower (_clean (Some b))) then true else blocked_scan n bs'
  end.

Definition _is_blocked (name : option string) : bool :=
  let n := lower (_clean name) in
  blocked_scan n BLOCKED_NAMES.

(** An exception object: its class name and its message ([str(ex)]). *)
Record Exn := { exn_class : string; exn_msg : string }.

Definition _is_cancel (ex : Exn) : bool :=
  let name := exn_class ex in
  let msg := lower (exn_msg ex) in
  String.eqb name "OperationCanceledException"
  || contains "aborted the pick operation" msg.


(** The values that travel through the script. *)
Inductive PyValue :=
| PyNone
| PyFloat (x : float)
| PyInt (n : Z)
| PyStr (s : string)
| PyElementId (i : Z).

(** Python truth of a value ([if val]). *)
Definition truthy (v : PyValue) : bool :=
  match v with
  | PyNone => false
  | PyFloat x => negb (PrimFloat.eqb x 0%float)
  | PyInt n => negb (n =? 0)%Z
  | PyStr s => negb (String.eqb s "")
  | PyElementId _ => true
  end.

(** [p.Definition]: it carries the UI name; the name may be absent. *)
Record DefinitionT := { Name : option string }.

(** A parameter of an element.  As in the host API every parameter answers
    each typed getter; [StorageType] says which of them is the stored one.
    [ReadError] and [WriteError] are the host's refusals: when set, the
    typed getters (resp. [Set]) raise with that message.  [SetDeclined]
    is the host's other way of not writing: [Set] returns [False] and
    stores nothing. *)
Record Param := {
  p_Definition : option DefinitionT;
  StorageType : DB.StorageType.t;
  IsReadOnly : bool;
  double_value : float;
  integer_value : Z;
  string_value : option string;
  elementid_value : Z;
  ReadError : option string;
  WriteError : option string;
  SetDeclined : bool;
}.

Record Element := { Parameters : list Param }.

(** A parameter object is a reference into the document: the id of its
    element and its position in that element's enumeration. *)
Definition ParamRef : Type := Z * nat.

(** The document, with the journal of the [Set] calls the script has made
    on it (every call is recorded, also one the host refuses or
    declines). *)
Record State := {
  elements : gmap Z Element;
  set_calls : list (ParamRef * PyValue);
}.

(** ** Results and the state-and-exception monad *)

Inductive result (A : Type) :=
| Ok (a : A)
| Raise (msg : string).
#[global] Arguments Ok {A} a.
#[global] Arguments Raise {A} msg.

Definition M (A : Type) : Type := State → result A * State.

#[global] Instance M_ret : MRet M := λ A a s, (Ok a, s).

#[global] Instance M_bind : MBind M := λ A B f m s,
  match m s with
  | (Ok a, s') => f a s'
  | (Raise msg, s') => (Raise msg, s')
  end.

(** [try: body / except Exception as e: handler(str(e))] *)
Definition try_except {A} (body : M A) (handler : string → M A) : M A := λ s,
  match body s with
  | (Ok a, s') => (Ok a, s')
  | (Raise msg, s') => handler msg s'
  end.

Definition raise {A} (msg : string) : M A := λ s, (Raise msg, s).

(** ** Host calls *)

(** [doc.GetElement(id)]: the element handle, or nothing. *)
Definition GetElement (s : State) (id : Z) : option Z :=
  if decide (is_Some (elements s !! id)) then Some id else None.

(** [elem.Parameters]; an id the document does not hold has none. *)
Definition elem_Parameters (s : State) (elem : Z) : list Param :=
  match elements s !! elem with
  | Some e => Parameters e
  | None => []
  end.

Definition param_at (s : State) (r : ParamRef) : option Param :=
  elem_Parameters s r.1 !! r.2.

(** [p.Definition.Name]; fails when the parameter has no definition. *)
Definition p_Definition_Name (p : Param) : result (option string) :=
  match p_Definition p with
  | Some d => Ok (Name d)
  | None => Raise "'NoneType' object has no attribute 'Name'"
  end.

Definition has_name (pname : string) (p : Param) : bool :=
  match p_Definition p with
  | Some d => bool_decide (Name d = Some pname)
  | None => false
  end.

(** Position of the first parameter called exactly [pname]. *)
Fixpoint find_param (pname : string) (ps : list Param) : option nat :=
  match ps with
  | [] => None
  | p :: ps' => if has_name pname p then Some 0 else S <$> find_param pname ps'
  end.

(** [elem.LookupParameter(pname)] *)
Definition LookupParameter (elem : Z) (pname : string) : M (option ParamRef) := λ s,
  (Ok ((λ i, (elem, i)) <$> find_param pname (elem_Parameters s elem)), s).

(** Reading an attribute of a parameter object. *)
Definition attr {A} (f : Param → A) (r : ParamRef) : M A := λ s,
  match param_at s r with
  | Some p => (Ok (f p), s)
  | None => (Raise "The referenced object is not valid", s)
  end.

(** The typed getters [AsDouble], [AsInteger], [AsString], [AsElementId]. *)
Definition typed_get (f : Param → PyValue) (r : ParamRef) : M PyValue :=
  p ← attr id r;
  match ReadError p with
  | Some msg => raise msg
  | None => mret (f p)
  end.

Definition AsDouble : ParamRef → M PyValue :=
  typed_get (λ p, PyFloat (double_value p)).
Definition AsInteger : ParamRef → M PyValue :=
  typed_get (λ p, PyInt (integer_value p)).
Definition AsString : ParamRef → M PyValue :=
  typed_get (λ p, match string_value p with Some x => PyStr x | None => PyNone end).
Definition AsElementId : ParamRef → M PyValue :=
  typed_get (λ p, PyElementId (elementid_value p)).

(** What [Set] stores: the overload chosen by the argument must be the one
    of the parameter's storage type; otherwise the host does not take it. *)
Definition store (p : Param) (v : PyValue) : option Param :=
  match v, StorageType p with
  | PyFloat x, DB.StorageType.Double =>
      Some {| p_Definition := p_Definition p; StorageType := StorageType p;
              IsReadOnly := IsReadOnly p; double_value := x;
              integer_value := integer_value p; string_value := string_value p;
              elementid_value := elementid_value p;
              ReadError := ReadError p; WriteError := WriteError p;
              SetDeclined := SetDeclined p |}
  | PyInt n, DB.StorageType.Integer =>
      Some {| p_Definition := p_Definition p; StorageType := StorageType p;
              IsReadOnly := IsReadOnly p; double_value := double_value p;
              integer_value := n; string_value := string_value p;
              elementid_value := elementid_value p;
              ReadError := ReadError p; WriteError := WriteError p;
              SetDeclined := SetDeclined p |}
  | PyStr x, DB.StorageType.String =>
      Some {| p_Definition := p_Definition p; StorageType := StorageType p;
              IsReadOnly := IsReadOnly p; double_value := double_value p;
              integer_value := integer_value p; string_value := Some x;
              elementid_value := elementid_value p;
              ReadError := ReadError p; WriteError := WriteError p;
              SetDeclined := SetDeclined p |}
  | PyElementId i, DB.StorageType.ElementId =>
      Some {| p_Definition := p_Definition p; StorageType := StorageType p;
              IsReadOnly := IsReadOnly p; double_value := double_value p;
              integer_value := integer_value p; string_value := string_value p;
              elementid_value := i;
              ReadError := ReadError p; WriteError := WriteError p;
              SetDeclined := SetDeclined p |}
  | _, _ => None
  end.

Definition put_param (r : ParamRef) (p' : Param) (els : gmap Z Element)
  : gmap Z Element :=
  match els !! r.1 with
  | Some e => <[r.1 := {| Parameters := <[r.2 := p']> (Parameters e) |}]> els
  | None => els
  end.

(** [p.Set(value)]: journalled, then stored (the call answers [True]),
    declined (it answers [False]) or refused by raising; a declined or
    refused call leaves the document as it was. *)
Definition Param_Set (r : ParamRef) (v : PyValue) : M bool := λ s,
  let s1 := {| elements := elements s; set_calls := set_calls s ++ [(r, v)] |} in
  match param_at s r with
  | None => (Raise "The referenced object is not valid", s1)
  | Some p =>
      match WriteError p with
      | Some msg => (Raise msg, s1)
      | None =>
          if IsReadOnly p then (Raise "The parameter is read-only.", s1)
          else if SetDeclined p then (Ok false, s1)
          else
            match store p v with
            | Some p' =>
                (Ok true, {| elements := put_param r p' (elements s);
                             set_calls := set_calls s1 |})
            | None => (Raise "The parameter does not take this value.", s1)
            end
      end
  end.

(** ** HELPERS that read the document *)

Definition _storage_label (st : DB.StorageType.t) : string :=
  match st with
  | DB.StorageType.Double => "Double"
  | DB.StorageType.Integer => "Integer"
  | DB.StorageType.String => "String"
  | DB.StorageType.ElementId => "ElementId"
  | DB.StorageType.None => "None"
  end.

(** The [for p in elem.Parameters] loop of [_param_names_lower], with the
    set [out] built so far.  A parameter whose name cannot be read is
    passed over by the inner [except: pass]. *)
Fixpoint names_loop (ps : list Param) (out : gset string) : gset string :=
  match ps with
  | [] => out
  | p :: ps' =>
      match p_Definition_Name p with
      | Raise _ => names_loop ps' out
      | Ok raw =>
          let n := _clean raw in
          if String.eqb n "" || _is_blocked (Some n) then names_loop ps' out
          else names_loop ps' ({[lower n]} ∪ out)
      end
  end.

Definition _param_names_lower (s : State) (elem : Z) : gset string :=
  names_loop (elem_Parameters s elem) ∅.

(** A value of the dictionary built by [_build_source_param_map]. *)
Record ParameterDescriptor := { name : string; display : string }.

(** [u"{}   [{} | {}]".format(name, st, ro)] *)
Definition display_label (n st ro : string) : string :=
  n +:+ "   [" +:+ st +:+ " | " +:+ ro +:+ "]".

(** The [for p in params] loop of [_build_source_param_map]. *)
Fixpoint map_loop (ps : list Param) (m : gmap string ParameterDescriptor)
  : gmap string ParameterDescriptor :=
  match ps with
  | [] => m
  | p :: ps' =>
      match p_Definition_Name p with
      | Raise _ => map_loop ps' m
      | Ok raw =>
          let n := _clean raw in
          if String.eqb n "" || _is_blocked (Some n) then map_loop ps' m
          else
            let key := lower n in
            if decide (is_Some (m !! key)) then map_loop ps' m
            else
              let ro := if IsReadOnly p then "RO" else "RW" in
              let st := _storage_label (StorageType p) in
              let disp := display_label n st ro in
              map_loop ps' (<[key := {| name := n; display := disp |}]> m)
      end
  end.

Definition _build_source_param_map (s : State) (source : Z)
  : gmap string ParameterDescriptor :=
  map_loop (elem_Parameters s source) ∅.

(** ** Reading and writing one value *)

Definition _get_param_value (p : ParamRef) : M PyValue :=
  st ← attr StorageType p;
  match st with
  | DB.StorageType.Double => AsDouble p
  | DB.StorageType.Integer => AsInteger p
  | DB.StorageType.String => AsString p
  | DB.StorageType.ElementId => AsElementId p
  | DB.StorageType.None => mret PyNone
  end.

Definition _set_param_value (p : ParamRef) (value : PyValue) : M bool :=
  st ← attr StorageType p;
  match st with
  | DB.StorageType.Double => Param_Set p value ;; mret true
  | DB.StorageType.Integer => Param_Set p value ;; mret true
  | DB.StorageType.String =>
      Param_Set p (match value with PyNone => PyStr "" | _ => value end) ;;
      mret true
  | DB.StorageType.ElementId => Param_Set p value ;; mret true
  | DB.StorageType.None => mret false
  end.

(** The guarded part of [_try_copy_by_name], between [try:] and [except]. *)
Definition copy_body (sp tp : ParamRef) : M (bool * string) :=
  val ← _get_param_value sp;
  st ← attr StorageType sp;
  unresolved ←
    (if decide (st = DB.StorageType.ElementId) then
       match val with
       | PyElementId i =>
           if truthy val && bool_decide (i ≠ DB.ElementId.InvalidElementId)
           then λ s, (Ok (bool_decide (GetElement s i = None)), s)
           else mret false
       | _ => mret false
       end
     else mret false);
  if (unresolved : bool) then mret (false, "elementid not in doc")
  else
    done ← _set_param_value tp val;
    if (done : bool) then mret (true, "") else mret (false, "unsupported").

Definition _try_copy_by_name (src_elem dst_elem : Z) (pname : string)
  : M (bool * string) :=
  let pname := _clean (Some pname) in
  if String.eqb pname "" || _is_blocked (Some pname)
  then mret (false, "blocked/empty")
  else
    sp ← LookupParameter src_elem pname;
    tp ← LookupParameter dst_elem pname;
    match sp, tp with
    | Some sp, Some tp =>
        ro ← attr IsReadOnly tp;
        if (ro : bool) then mret (false, "read-only")
        else
          sst ← attr StorageType sp;
          tst ← attr StorageType tp;
          if decide (sst ≠ tst) then mret (false, "type mismatch")
          else try_except (copy_body sp tp) (λ e, mret (false, e))
    | _, _ => mret (false, "missing")
    end.

(** ** 2) PICK TARGETS *)

(** What one [PickObject] call brings: a picked reference, or an
    exception (ESC raises the host's cancel exception). *)
Inductive PickEvent :=
| Picked (ElementId : Z)
| PickRaised (ex : Exn).

(** How the [while True] loop stands after the events so far: still
    picking, left through ESC, or left by an exception it re-raised.
    ([_set_selection] only refreshes the highlight and is left out.) *)
Inductive PickEnd :=
| Picking (target_ids : list Z)
| Continued (target_ids : list Z)
| Reraised (ex : Exn).

(** [target_ids.remove(x)]: the first occurrence goes. *)
Fixpoint list_remove (x : Z) (l : list Z) : list Z :=
  match l with
  | [] => []
  | y :: l' => if decide (x = y) then l' else y :: list_remove x l'
  end.

Fixpoint pick_targets (s : State) (source : Z) (evs : list PickEvent)
    (target_ids : list Z) : PickEnd :=
  match evs with
  | [] => Picking target_ids
  | Picked r :: evs' =>
      match GetElement s r with
      | None => pick_targets s source evs' target_ids
      | Some e =>
          if decide (e = source) then pick_targets s source evs' target_ids
          else if decide (e ∈ target_ids)
          then pick_targets s source evs' (list_remove e target_ids)
          else pick_targets s source evs' (target_ids ++ [e])
      end
  | PickRaised ex :: _ =>
      if _is_cancel ex then Continued target_ids else Reraised ex
  end.

Definition picked_ids (e : PickEnd) : list Z :=
  match e with
  | Picking t | Continued t => t
  | Reraised _ => []
  end.

(** ** 3) BUILD COMMON PARAM LIST *)

(** The [for tid in target_ids] loop that narrows [common_keys]. *)
Fixpoint narrow (s : State) (target_ids : list Z) (common_keys : gset string)
  : gset string :=
  match target_ids with
  | [] => common_keys
  | tid :: rest =>
      match GetElement s tid with
      | None => narrow s rest common_keys
      | Some tgt => narrow s rest (common_keys ∩ _param_names_lower s tgt)
      end
  end.

Definition common_keys (s : State) (source : Z) (target_ids : list Z)
  : gset string :=
  let src_map := _build_source_param_map s source in
  narrow s target_ids (dom src_map).

(** ** 5) APPLY COPY *)

Record Run := {
  elem_updated : nat;
  elem_skipped : nat;
  sets_ok : nat;
  sets_fail : nat;
  fail_samples : list string;
}.

Definition run0 : Run :=
  {| elem_updated := 0; elem_skipped := 0; sets_ok := 0; sets_fail := 0;
     fail_samples := [] |}.

Definition sampled_reasons : list string :=
  ["missing"; "read-only"; "type mismatch"; "elementid not in doc"].

(** [u"{} -> {}".format(pname, why)] *)
Definition sample_line (pname why : string) : string :=
  pname +:+ " -> " +:+ why.

(** The body of [for pname in picked_names], after the copy returned. *)
Definition count_field (pname : string) (ok : bool) (why : string)
    (ok_any : bool) (r : Run) : bool * Run :=
  if ok then
    (true,
     {| elem_updated := elem_updated r; elem_skipped := elem_skipped r;
        sets_ok := sets_ok r + 1; sets_fail := sets_fail r;
        fail_samples := fail_samples r |})
  else
    (ok_any,
     {| elem_updated := elem_updated r; elem_skipped := elem_skipped r;
        sets_ok := sets_ok r; sets_fail := sets_fail r + 1;
        fail_samples :=
          if bool_decide (why ∈ sampled_reasons)
             && (length (fail_samples r) <? 10)
          then fail_samples r ++ [sample_line pname why]
          else fail_samples r |}).

Fixpoint copy_fields (source tgt : Z) (picked_names : list string)
    (ok_any : bool) (r : Run) : M (bool * Run) :=
  match picked_names with
  | [] => mret (ok_any, r)
  | pname :: rest =>
      res ← _try_copy_by_name source tgt pname;
      let '(ok_any', r') := count_field pname res.1 res.2 ok_any r in
      copy_fields source tgt rest ok_any' r'
  end.

Definition count_element (ok_any : bool) (r : Run) : Run :=
  if ok_any then
    {| elem_updated := elem_updated r + 1; elem_skipped := elem_skipped r;
       sets_ok := sets_ok r; sets_fail := sets_fail r;
       fail_samples := fail_samples r |}
  else
    {| elem_updated := elem_updated r; elem_skipped := elem_skipped r + 1;
       sets_ok := sets_ok r; sets_fail := sets_fail r;
       fail_samples := fail_samples r |}.

Fixpoint apply_copy (source : Z) (target_ids : list Z)
    (picked_names : list string) (r : Run) : M Run :=
  match target_ids with
  | [] => mret r
  | tid :: rest =>
      tgt ← (λ s, (Ok (GetElement s tid), s));
      match tgt with
      | None => apply_copy source rest picked_names (count_element false r)
      | Some tgt =>
          res ← copy_fields source tgt picked_names false r;
          apply_copy source rest picked_names (count_element res.1 res.2)
      end
  end.

(** ** Views used by the statements and proofs

    None of these is called by the script; each is tied to the script's own
    functions by a lemma below. *)

(** Reading the parameter called [pname] off an element: the lookup and
    [_get_param_value] in a row. *)
Definition read_by_name (elem : Z) (pname : string) : M PyValue :=
  p ← LookupParameter elem pname;
  match p with
  | Some p => _get_param_value p
  | None => raise "missing"
  end.

(** The four guards of [_try_copy_by_name] let the field through: the name
    is usable, both lookups answer, the target is writable and the storage
    types agree. *)
Definition reaches_copy (s : State) (src dst : Z) (pname : string)
    (sp tp : ParamRef) : Prop :=
  let n := _clean (Some pname) in
  (String.eqb n "" || _is_blocked (Some n)) = false
  ∧ LookupParameter src n s = (Ok (Some sp), s)
  ∧ LookupParameter dst n s = (Ok (Some tp), s)
  ∧ attr IsReadOnly tp s = (Ok false, s)
  ∧ ∃ st, attr StorageType sp s = (Ok st, s) ∧ attr StorageType tp s = (Ok st, s).


(** The sampling rule exactly as the specification words it, on a run of
    one target and one name: when the only invocation fails on an
    exception raised by the read of the source value, nothing is
    sampled. *)
Definition exception_messages_never_sampled (s : State) (source tgt : Z)
    (pname : string) : Prop :=
  ∀ sp tp msg s1 r s',
    reaches_copy s source tgt pname sp tp →
    _get_param_value sp s = (Raise msg, s1) →
    apply_copy source [tgt] [pname] run0 s = (Ok r, s') →
    fail_samples r = [].

(** The reason of a type mismatch exactly as the specification words it:
    differing storage types always give the reason "type mismatch". *)
Definition mismatch_reason_exact (s : State) (src dst : Z) (pname : string) : Prop :=
  ∀ sp tp psrc pdst,
    LookupParameter src (_clean (Some pname)) s = (Ok (Some sp), s) →
    LookupParameter dst (_clean (Some pname)) s = (Ok (Some tp), s) →
    param_at s sp = Some psrc →
    param_at s tp = Some pdst →
    StorageType psrc ≠ StorageType pdst →
    (_try_copy_by_name src dst pname s).1 = Ok (false, "type mismatch").

(** The value a parameter holds, by its storage type. *)
Definition stored_value (p : Param) : PyValue :=
  match StorageType p with
  | DB.StorageType.Double => PyFloat (double_value p)
  | DB.StorageType.Integer => PyInt (integer_value p)
  | DB.StorageType.String =>
      match string_value p with Some x => PyStr x | None => PyNone end
  | DB.StorageType.ElementId => PyElementId (elementid_value p)
  | DB.StorageType.None => PyNone
  end.

(** What [_get_param_value] answers for a parameter. *)
Definition read_result (p : Param) : result PyValue :=
  match StorageType p with
  | DB.StorageType.None => Ok PyNone
  | _ => match ReadError p with
         | Some msg => Raise msg
         | None => Ok (stored_value p)
         end
  end.

(** The argument [_set_param_value] hands to [Set]. *)
Definition set_argument (st : DB.StorageType.t) (value : PyValue) : PyValue :=
  match st, value with
  | DB.StorageType.String, PyNone => PyStr ""
  | _, _ => value
  end.

(** The reference check of [_try_copy_by_name] on the value read. *)
Definition unresolved (s : State) (st : DB.StorageType.t) (val : PyValue) : bool :=
  match st, val with
  | DB.StorageType.ElementId, PyElementId i =>
      bool_decide (i ≠ DB.ElementId.InvalidElementId)
      && bool_decide (GetElement s i = None)
  | _, _ => false
  end.

Definition journal (r : ParamRef) (v : PyValue) (s : State) : State :=
  {| elements := elements s; set_calls := set_calls s ++ [(r, v)] |}.

(** [Param_Set] on a reference that is known to hold [p]. *)
Definition set_result (r : ParamRef) (p : Param) (v : PyValue) (s : State)
  : result bool * State :=
  match WriteError p with
  | Some msg => (Raise msg, journal r v s)
  | None =>
      if IsReadOnly p then (Raise "The parameter is read-only.", journal r v s)
      else if SetDeclined p then (Ok false, journal r v s)
      else
        match store p v with
        | Some p' =>
            (Ok true, {| elements := put_param r p' (elements s);
                         set_calls := set_calls s ++ [(r, v)] |})
        | None => (Raise "The parameter does not take this value.", journal r v s)
        end
  end.

(** [_try_copy_by_name] once both parameters are found, with the monad
    unfolded ([try_copy_inv] proves the two equal). *)
Definition copy_found (s : State) (tp : ParamRef) (psrc pdst : Param)
  : result (bool * string) * State :=
  if IsReadOnly pdst then (Ok (false, "read-only"), s)
  else if decide (StorageType psrc ≠ StorageType pdst)
  then (Ok (false, "type mismatch"), s)
  else
    match read_result psrc with
    | Raise msg => (Ok (false, msg), s)
    | Ok val =>
        if unresolved s (StorageType psrc) val
        then (Ok (false, "elementid not in doc"), s)
        else
          match StorageType pdst with
          | DB.StorageType.None => (Ok (false, "unsupported"), s)
          | st =>
              match set_result tp pdst (set_argument st val) s with
              | (Ok _, s') => (Ok (true, ""), s')
              | (Raise msg, s') => (Ok (false, msg), s')
              end
          end
    end.

(** What one parameter contributes to the source catalogue: its key and
    descriptor, or nothing when the loop passes it over. *)
Definition catalogue_entry (p : Param) : option (string * ParameterDescriptor) :=
  match p_Definition_Name p with
  | Raise _ => None
  | Ok raw =>
      let n := _clean raw in
      if String.eqb n "" || _is_blocked (Some n) then None
      else
        Some (lower n,
              {| name := n;
                 display := display_label n (_storage_label (StorageType p))
                              (if IsReadOnly p then "RO" else "RW") |})
  end.

(** The descriptor of the first parameter, in enumeration order, whose key
    is [k]. *)
Fixpoint first_entry (k : string) (ps : list Param) : option ParameterDescriptor :=
  match ps with
  | [] => None
  | p :: ps' =>
      match catalogue_entry p with
      | Some (k', d) => if decide (k' = k) then Some d else first_entry k ps'
      | None => first_entry k ps'
      end
  end.

(** One invocation of the per-field copy by the apply loop. *)
Record Call := {
  call_dst : Z;
  call_name : string;
  call_ok : bool;
  call_why : string;
}.

(** The invocations the inner loop makes on one target, in order. *)
Fixpoint field_calls (source tgt : Z) (picked_names : list string) (s : State)
  : list Call * State :=
  match picked_names with
  | [] => ([], s)
  | pname :: rest =>
      match _try_copy_by_name source tgt pname s with
      | (Ok (ok, why), s') =>
          let '(cs, s'') := field_calls source tgt rest s' in
          ({| call_dst := tgt; call_name := pname;
              call_ok := ok; call_why := why |} :: cs, s'')
      | (Raise _, s') => ([], s')
      end
  end.

(** The invocations of the whole apply loop, grouped by target id; an id
    that does not resolve has none. *)
Fixpoint target_calls (source : Z) (target_ids : list Z)
    (picked_names : list string) (s : State) : list (Z * list Call) * State :=
  match target_ids with
  | [] => ([], s)
  | tid :: rest =>
      match GetElement s tid with
      | None =>
          let '(gs, s') := target_calls source rest picked_names s in
          ((tid, []) :: gs, s')
      | Some tgt =>
          let '(cs, s1) := field_calls source tgt picked_names s in
          let '(gs, s2) := target_calls source rest picked_names s1 in
          ((tid, cs) :: gs, s2)
      end
  end.

Definition count {A} (f : A → bool) (l : list A) : nat :=
  length (List.filter f l).

Definition failed (c : Call) : bool := negb (call_ok c).

(** A failure the report may quote: the reason is, to the letter, one of
    the four strings. *)
Definition sampled (c : Call) : bool :=
  negb (call_ok c)
  && (String.eqb (call_why c) "missing"
      || String.eqb (call_why c) "read-only"
      || String.eqb (call_why c) "type mismatch"
      || String.eqb (call_why c) "elementid not in doc").

Definition sample_lines (cs : list Call) : list string :=
  (λ c, sample_line (call_name c) (call_why c)) <$> List.filter sampled cs.

(** A target with at least one field copied. *)
Definition updated (g : Z * list Call) : bool := existsb call_ok g.2.

Definition resolves (s : State) (tid : Z) : bool :=
  bool_decide (is_Some (GetElement s tid)).

Definition add_samples (fs new : list string) : list string :=
  fs ++ take (10 - length fs) new.

Definition tally (cs : list Call) (r : Run) : Run :=
  {| elem_updated := elem_updated r; elem_skipped := elem_skipped r;
     sets_ok := sets_ok r + count call_ok cs;
     sets_fail := sets_fail r + count failed cs;
     fail_samples := add_samples (fail_samples r) (sample_lines cs) |}.

Definition tally_groups (gs : list (Z * list Call)) (r : Run) : Run :=
  {| elem_updated := elem_updated r + count updated gs;
     elem_skipped := elem_skipped r + count (λ g, negb (updated g)) gs;
     sets_ok := sets_ok r + count call_ok (concat gs.*2);
     sets_fail := sets_fail r + count failed (concat gs.*2);
     fail_samples := add_samples (fail_samples r) (sample_lines (concat gs.*2)) |}.

(** ** 3) continued: the sorted keys and the dropdown items *)

(** [sorted(list(common_keys))]: the keys in ascending order. *)
Definition common_keys_sorted (common_keys : gset string) : list string :=
  merge_sort String.le (base.elements common_keys).

(** [src_map[k]]; a key the dictionary lacks raises [KeyError]. *)
Definition getitem (src_map : gmap string ParameterDescriptor) (k : string)
  : result ParameterDescriptor :=
  match src_map !! k with
  | Some d => Ok d
  | None => Raise "KeyError"
  end.

(** [[src_map[k]["display"] for k in common_keys_sorted]] *)
Fixpoint display_items (src_map : gmap string ParameterDescriptor)
    (keys : list string) : result (list string) :=
  match keys with
  | [] => Ok []
  | k :: rest =>
      match getitem src_map k with
      | Raise e => Raise e
      | Ok d =>
          match display_items src_map rest with
          | Raise e => Raise e
          | Ok items => Ok (display d :: items)
          end
      end
  end.

(** ** 4) PICK PARAMETERS *)

(** The [for k in common_keys_sorted] loop that turns the picked labels
    back into parameter names. *)
Fixpoint picked_names_loop (src_map : gmap string ParameterDescriptor)
    (keys : list string) (picked_set : gset string)
    (picked_names : list string) : result (list string) :=
  match keys with
  | [] => Ok picked_names
  | k :: rest =>
      match getitem src_map k with
      | Raise e => Raise e
      | Ok d =>
          if decide (display d ∈ picked_set) then
            match getitem src_map k with
            | Raise e => Raise e
            | Ok d' =>
                picked_names_loop src_map rest picked_set
                  (picked_names ++ [name d'])
            end
          else picked_names_loop src_map rest picked_set picked_names
      end
  end.

Definition pick_names (src_map : gmap string ParameterDescriptor)
    (keys : list string) (picked_display : list string) : result (list string) :=
  let picked_set : gset string := list_to_set picked_display in
  picked_names_loop src_map keys picked_set [].

(** [extra.split(",")]: the pieces between the commas, empty ones kept. *)
Fixpoint split_comma (s : string) : list string :=
  match s with
  | EmptyString => [EmptyString]
  | String c r =>
      if Ascii.eqb c ","%char then EmptyString :: split_comma r
      else
        match split_comma r with
        | piece :: pieces => String c piece :: pieces
        | [] => [String c EmptyString]
        end
  end.

(** The [for x in extra.split(",")] loop over the manual extras. *)
Fixpoint extras_loop (xs : list string) (picked_names : list string)
  : list string :=
  match xs with
  | [] => picked_names
  | x :: rest =>
      let n := _clean (Some x) in
      if negb (String.eqb n "") && negb (_is_blocked (Some n)) then
        if decide (lower n ∉ (lower <$> picked_names))
        then extras_loop rest (picked_names ++ [n])
        else extras_loop rest picked_names
      else extras_loop rest picked_names
  end.

(** [if extra: ...]; the prompt answers [None] when it is dismissed. *)
Definition add_extras (extra : option string) (picked_names : list string)
  : list string :=
  match extra with
  | None => picked_names
  | Some e =>
      if String.eqb e "" then picked_names
      else extras_loop (split_comma e) picked_names
  end.

End Script.

(** ** Documents used in the examples *)

Module Fixtures.
Definition param (n : option string) (st : DB.StorageType.t) (ro : bool) : Param :=
  {| p_Definition := Some {| Name := n |}; StorageType := st; IsReadOnly := ro;
     double_value := 0%float; integer_value := 0; string_value := None;
     elementid_value := DB.ElementId.InvalidElementId;
     ReadError := None; WriteError := None; SetDeclined := false |}.

Definition text (n : string) (v : option string) : Param :=
  {| p_Definition := Some {| Name := Some n |};
     StorageType := DB.StorageType.String; IsReadOnly := false;
     double_value := 0%float; integer_value := 0; string_value := v;
     elementid_value := DB.ElementId.InvalidElementId;
     ReadError := None; WriteError := None; SetDeclined := false |}.

Definition number (n : string) (v : Z) : Param :=
  {| p_Definition := Some {| Name := Some n |};
     StorageType := DB.StorageType.Integer; IsReadOnly := false;
     double_value := 0%float; integer_value := v; string_value := None;
     elementid_value := DB.ElementId.InvalidElementId;
     ReadError := None; WriteError := None; SetDeclined := false |}.

Definition length_ (n : string) (v : float) : Param :=
  {| p_Definition := Some {| Name := Some n |};
     StorageType := DB.StorageType.Double; IsReadOnly := false;
     double_value := v; integer_value := 0; string_value := None;
     elementid_value := DB.ElementId.InvalidElementId;
     ReadError := None; WriteError := None; SetDeclined := false |}.

Definition link (n : string) (v : Z) : Param :=
  {| p_Definition := Some {| Name := Some n |};
     StorageType := DB.StorageType.ElementId; IsReadOnly := false;
     double_value := 0%float; integer_value := 0; string_value := None;
     elementid_value := v;
     ReadError := None; WriteError := None; SetDeclined := false |}.

Definition read_fault (msg : string) (p : Param) : Param :=
  {| p_Definition := p_Definition p; StorageType := StorageType p;
     IsReadOnly := IsReadOnly p; double_value := double_value p;
     integer_value := integer_value p; string_value := string_value p;
     elementid_value := elementid_value p;
     ReadError := Some msg; WriteError := WriteError p;
     SetDeclined := SetDeclined p |}.

Definition write_fault (msg : string) (p : Param) : Param :=
  {| p_Definition := p_Definition p; StorageType := StorageType p;
     IsReadOnly := IsReadOnly p; double_value := double_value p;
     integer_value := integer_value p; string_value := string_value p;
     elementid_value := elementid_value p;
     ReadError := ReadError p; WriteError := Some msg;
     SetDeclined := SetDeclined p |}.

Definition declined (p : Param) : Param :=
  {| p_Definition := p_Definition p; StorageType := StorageType p;
     IsReadOnly := IsReadOnly p; double_value := double_value p;
     integer_value := integer_value p; string_value := string_value p;
     elementid_value := elementid_value p;
     ReadError := ReadError p; WriteError := WriteError p;
     SetDeclined := true |}.

Definition document (els : list (Z * list Param)) : State :=
  {| elements := list_to_map (prod_map id Build_Element <$> els);
     set_calls := [] |}.

(** The scenario of the specification: element 1 is the source, 2 the
    target. *)
Definition scenario : State :=
  document
    [ (1, [text "Comments" (Some "A"); text "Arbeitsebene" (Some "L1")]);
      (2, [text "Comments" (Some ""); text "Arbeitsebene" (Some "L2");
           text "Mark" (Some "X")]) ]%Z.

(** Width is a Double on 1 and an Integer on 2; Mark is read-only on 2;
    Note has no value on 1; Host points at element 7, which is gone; the
    host refuses to read Sealed on 1 and to write Locked on 2; Height is
    a Double on 1 and a read-only Integer on 2; the host declines to set
    Frozen on 2; reading Gone on 1 raises with the text "missing". *)
Definition mixed : State :=
  document
    [ (1, [length_ "Width" 2.5%float; text "Mark" (Some "M1");
           text "Note" None; link "Host" 7; number "Count" 3;
           read_fault "read refused" (number "Sealed" 1);
           number "Locked" 5; length_ "Height" 3%float;
           number "Frozen" 7; read_fault "missing" (number "Gone" 1)]);
      (2, [number "Width" 4; param (Some "Mark") DB.StorageType.String true;
           text "Note" (Some "old"); link "Host" 1; number "Count" 0;
           number "Sealed" 0;
           write_fault "write refused" (number "Locked" 0);
           param (Some "Height") DB.StorageType.Integer true;
           declined (number "Frozen" 0); number "Gone" 0]) ]%Z.

(** Two elements whose Host parameters point at each other. *)
Definition linked : State :=
  document [ (1, [link "Host" 2]); (2, [link "Host" 1]) ]%Z.

(** Element 1 exposes the name Mark three times, in three spellings, and
    a nameless and a blocked parameter in between. *)
Definition repeated : State :=
  document
    [ (1, [text "Mark" (Some "first"); param None DB.StorageType.Integer false;
           number "MARK" 2; text "Arbeitsebene" None;
           param (Some " mark ") DB.StorageType.Double true;
           text "Note" None]) ]%Z.

(** Elements 1 and 3 carry Comments, element 2 only Mark. *)
Definition disjoint : State :=
  document
    [ (1, [text "Comments" None]);
      (2, [text "Mark" None]);
      (3, [text "Comments" None]) ]%Z.
End Fixtures.

(** * Proofs *)

Section Proofs.
Context {text : Text}.

(** ** Names *)

Lemma clean_idem s : _clean (Some (_clean s)) = _clean s.
Proof. unfold _clean. simpl. apply strip_idem. Qed.

(** ** Names of an element *)

Lemma blocked_scan_spec n bs :
  blocked_scan n bs = false ↔ ∀ b, b ∈ bs → n ≠ lower (strip b).
Proof.
  induction bs as [|b bs IH]; simpl.
  - split; [|done]. intros _ b Hb. by apply elem_of_nil in Hb.
  - unfold _clean at 1. simpl. destruct (String.eqb_spec n (lower (strip b))) as [->|Hne].
    + split; [done|]. intros H. exfalso. apply (H b); [left|done].
    + rewrite IH. split.
      * intros H b' [->|Hb']%elem_of_cons; auto.
      * intros H b' Hb'. apply H. by right.
Qed.

(** What the loop adds to [out]. *)
Lemma names_loop_elem ps out k :
  k ∈ names_loop ps out →
  k ∈ out ∨ ∃ n, k = lower n ∧ strip n = n ∧ n ≠ "" ∧ _is_blocked (Some n) = false.
Proof.
  revert out. induction ps as [|p ps IH]; intros out; simpl; [by left|].
  destruct (p_Definition_Name p) as [raw|]; [|apply IH].
  destruct (String.eqb_spec (_clean raw) "") as [|Hne]; simpl; [apply IH|].
  destruct (_is_blocked (Some (_clean raw))) eqn:Hb; [apply IH|].
  intros [Hk|Hk]%IH; [|by right].
  apply elem_of_union in Hk as [Hk%elem_of_singleton|Hk]; [|by left].
  right. exists (_clean raw). split_and!; try done.
  unfold _clean. apply strip_idem.
Qed.

(** C4: no name in the set returned by [_param_names_lower] is empty, and
    none matches an entry of [BLOCKED_NAMES] once both are trimmed and
    lower-cased, whatever parameters the host enumerates on the element. *)
Theorem param_names_lower_never_blocked s elem k :
  k ∈ _param_names_lower s elem →
  k ≠ "" ∧ _is_blocked (Some k) = false
  ∧ ∀ b, b ∈ BLOCKED_NAMES → lower (strip k) ≠ lower (strip b).
Proof.
  intros [Hk|(n & -> & Hn & Hne & Hb)]%names_loop_elem; [set_solver|].
  assert (lower (strip (lower n)) = lower n) as Hfix.
  { by rewrite strip_lower, Hn, lower_idem. }
  assert (_is_blocked (Some (lower n)) = false) as Hb'.
  { unfold _is_blocked, _clean in *. simpl in *. by rewrite Hfix, Hn in *. }
  split_and!; [by rewrite lower_empty|done|].
  unfold _is_blocked, _clean in Hb'. simpl in Hb'.
  by apply blocked_scan_spec.
Qed.

(** ** The source catalogue *)

(** The loop never overwrites: a key already in [m] keeps its descriptor,
    a new key gets the descriptor of its first parameter. *)
Lemma map_loop_lookup ps (m : gmap string ParameterDescriptor) k :
  map_loop ps m !! k =
  match m !! k with Some d => Some d | None => first_entry k ps end.
Proof.
  revert m. induction ps as [|p ps IH]; intros m; simpl.
  { by destruct (m !! k). }
  unfold catalogue_entry.
  destruct (p_Definition_Name p) as [raw|]; [|apply IH].
  destruct (String.eqb (_clean raw) "" || _is_blocked (Some (_clean raw)));
    [apply IH|].
  destruct (decide (is_Some (m !! lower (_clean raw)))) as [[d Hd]|Hno].
  - rewrite IH. destruct (decide (lower (_clean raw) = k)) as [<-|]; [|done].
    by rewrite Hd.
  - rewrite IH. apply eq_None_not_Some in Hno.
    destruct (decide (lower (_clean raw) = k)) as [<-|Hne].
    + by rewrite lookup_insert_eq, Hno.
    + by rewrite lookup_insert_ne.
Qed.

Lemma first_entry_Some k ps d :
  first_entry k ps = Some d →
  ∃ i p, ps !! i = Some p ∧ catalogue_entry p = Some (k, d) ∧
    ∀ j p', j < i → ps !! j = Some p' → fst <$> catalogue_entry p' ≠ Some k.
Proof.
  induction ps as [|p ps IH]; simpl; [done|].
  destruct (catalogue_entry p) as [[k' d']|] eqn:E.
  - destruct (decide (k' = k)) as [->|Hne].
    + intros [= ->]. exists 0, p. split_and!; [done..|]. intros; lia.
    + intros (i & q & Hi & Hq & Hfirst)%IH. exists (S i), q.
      split_and!; [done..|]. intros [|j] p' Hj; simpl.
      * intros [= <-]. rewrite E. simpl. congruence.
      * apply Hfirst. lia.
  - intros (i & q & Hi & Hq & Hfirst)%IH. exists (S i), q.
    split_and!; [done..|]. intros [|j] p' Hj; simpl.
    + intros [= <-]. by rewrite E.
    + apply Hfirst. lia.
Qed.

Lemma first_entry_is_Some k ps i p d :
  ps !! i = Some p → catalogue_entry p = Some (k, d) →
  is_Some (first_entry k ps).
Proof.
  revert i. induction ps as [|q ps IH]; intros [|i]; simpl; try done.
  - intros [= ->] ->. rewrite decide_True; eauto.
  - intros Hi Hp. destruct (catalogue_entry q) as [[k' d']|]; [|eauto].
    destruct (decide (k' = k)); eauto.
Qed.

(** Conversely, every parameter the loop does not pass over has its key in
    the catalogue. *)
Lemma source_catalogue_complete s source i p k d :
  elem_Parameters s source !! i = Some p →
  catalogue_entry p = Some (k, d) →
  is_Some (_build_source_param_map s source !! k).
Proof.
  intros Hi Hp. unfold _build_source_param_map.
  rewrite map_loop_lookup, lookup_empty. by eapply first_entry_is_Some.
Qed.

Lemma catalogue_entry_key p k d :
  catalogue_entry p = Some (k, d) →
  lower (name d) = k ∧ strip (name d) = name d ∧ name d ≠ ""
  ∧ _is_blocked (Some (name d)) = false.
Proof.
  unfold catalogue_entry. destruct (p_Definition_Name p) as [raw|]; [|done].
  destruct (String.eqb_spec (_clean raw) "") as [|Hne]; simpl; [done|].
  destruct (_is_blocked (Some (_clean raw))) eqn:Hb; [done|].
  intros [= <- <-]. simpl. split_and!; try done. apply strip_idem.
Qed.

Lemma lower_key_not_blocked n :
  strip n = n → _is_blocked (Some n) = false → _is_blocked (Some (lower n)) = false.
Proof.
  intros Hn Hb. unfold _is_blocked, _clean in *. simpl in *.
  by rewrite strip_lower, Hn, lower_idem in *.
Qed.

Lemma first_entry_first k ps i p d :
  ps !! i = Some p → catalogue_entry p = Some (k, d) →
  (∀ j p', j < i → ps !! j = Some p' → fst <$> catalogue_entry p' ≠ Some k) →
  first_entry k ps = Some d.
Proof.
  revert i. induction ps as [|q ps IH]; intros [|i]; simpl; try done.
  - intros [= ->] -> _. by rewrite decide_True.
  - intros Hi Hp Hfirst.
    assert (fst <$> catalogue_entry q ≠ Some k) as Hq
      by (apply (Hfirst 0 q); [lia|done]).
    assert (first_entry k ps = Some d) as Hrec.
    { apply (IH i); [done..|]. intros j p' Hj. apply (Hfirst (S j)). lia. }
    destruct (catalogue_entry q) as [[k' d']|]; [|done].
    destruct (decide (k' = k)) as [->|]; [by destruct Hq|done].
Qed.

(** What the loop records for one parameter, spelled out. *)
Lemma catalogue_entry_spec p k d :
  catalogue_entry p = Some (k, d) ↔
  (∃ raw, p_Definition_Name p = Ok raw ∧ name d = _clean raw
          ∧ name d ≠ "" ∧ _is_blocked (Some (name d)) = false)
  ∧ k = lower (name d)
  ∧ display d = display_label (name d) (_storage_label (StorageType p))
                  (if IsReadOnly p then "RO" else "RW").
Proof.
  unfold catalogue_entry. destruct (p_Definition_Name p) as [raw|msg].
  - destruct (String.eqb_spec (_clean raw) "") as [He|Hne]; simpl.
    + split; [done|]. intros [(raw' & [= <-] & Hn & Hne & _) _]. congruence.
    + destruct (_is_blocked (Some (_clean raw))) eqn:Hb.
      * split; [done|]. intros [(raw' & [= <-] & Hn & _ & Hb') _]. congruence.
      * split.
        -- intros [= <- <-]. simpl. split_and!; try done. by exists raw.
        -- intros [(raw' & [= <-] & Hn & _) [-> Hd]].
           destruct d as [n disp]. simpl in *. by subst.
  - split; [done|]. by intros [(raw' & [=] & _) _].
Qed.

(** C7: the catalogue built by [_build_source_param_map] holds [d] under
    the key [k] exactly when [d] describes the first parameter, in
    enumeration order, whose trimmed name is neither empty nor blocked and
    lower-cases to [k]; later parameters with that lower-cased name are
    ignored, whatever their spelling.  Every parameter with a usable name
    has its lower-cased name among the keys, no key is empty or blocked,
    and two descriptors never share a lower-cased name. *)
Theorem source_catalogue_first_wins s source k d :
  let params := elem_Parameters s source in
  let usable (p : Param) (n : string) : Prop :=
    ∃ raw, p_Definition_Name p = Ok raw ∧ n = _clean raw
           ∧ n ≠ "" ∧ _is_blocked (Some n) = false in
  (_build_source_param_map s source !! k = Some d ↔
   ∃ i p,
     params !! i = Some p
     ∧ usable p (name d)
     ∧ k = lower (name d)
     ∧ display d = display_label (name d) (_storage_label (StorageType p))
                     (if IsReadOnly p then "RO" else "RW")
     ∧ ∀ j p' n', j < i → params !! j = Some p' → usable p' n' →
         lower n' ≠ k)
  ∧ (∀ i p n, params !! i = Some p → usable p n →
       is_Some (_build_source_param_map s source !! lower n))
  ∧ (_build_source_param_map s source !! k = Some d →
     k ≠ "" ∧ _is_blocked (Some k) = false
     ∧ ∀ k' d', _build_source_param_map s source !! k' = Some d' →
         lower (name d') = lower (name d) → k' = k ∧ d' = d).
Proof.
  intros params usable.
  assert (∀ p n, usable p n ↔ ∃ d', catalogue_entry p = Some (lower n, d')
                                    ∧ name d' = n) as Husable.
  { intros p n. split.
    - intros (raw & Hraw & -> & Hne & Hb).
      exists {| name := _clean raw;
                display := display_label (_clean raw)
                             (_storage_label (StorageType p))
                             (if IsReadOnly p then "RO" else "RW") |}.
      split; [|done]. apply catalogue_entry_spec. simpl.
      split_and!; try done. by exists raw.
    - intros (d' & [(raw & Hraw & Hn & Hne & Hb) _]%catalogue_entry_spec & <-).
      by exists raw. }
  assert (∀ k' d', _build_source_param_map s source !! k' = Some d' →
            lower (name d') = k' ∧ strip (name d') = name d' ∧ name d' ≠ ""
            ∧ _is_blocked (Some (name d')) = false) as Hkey.
  { intros k' d'. unfold _build_source_param_map.
    rewrite map_loop_lookup, lookup_empty.
    intros (i & p & _ & Hp & _)%first_entry_Some.
    by eapply catalogue_entry_key. }
  split_and!.
  - unfold _build_source_param_map. rewrite map_loop_lookup, lookup_empty.
    fold params. split.
    + intros (i & p & Hi & Hp & Hfirst)%first_entry_Some.
      apply catalogue_entry_spec in Hp as Hp'.
      destruct Hp' as ((raw & Hraw & Hn & Hne & Hb) & Hk & Hd).
      exists i, p. split_and!; try done.
      * by exists raw.
      * intros j p' n' Hj Hp' (d' & Hd' & _)%Husable E.
        apply (Hfirst j p' Hj Hp'). rewrite Hd'. simpl. by rewrite E.
    + intros (i & p & Hi & (raw & Hraw & Hn & Hne & Hb) & Hk & Hd & Hfirst).
      apply (first_entry_first k params i p d); [done| |].
      * apply catalogue_entry_spec. split_and!; try done. by exists raw.
      * intros j p' Hj Hp' E.
        destruct (catalogue_entry p') as [[k' d']|] eqn:Hc; [|done].
        simpl in E. injection E as ->.
        apply (Hfirst j p' (name d') Hj Hp'); [|].
        -- apply Husable. exists d'. split; [|done].
           apply catalogue_entry_spec in Hc as Hc'.
           destruct Hc' as (_ & -> & _). done.
        -- apply catalogue_entry_spec in Hc as (_ & -> & _). done.
  - intros i p n Hi (d' & Hd' & _)%Husable.
    by eapply source_catalogue_complete.
  - intros Hm. destruct (Hkey _ _ Hm) as (Hk & Hs & Hne & Hb).
    split_and!.
    + rewrite <- Hk. by rewrite lower_empty.
    + rewrite <- Hk. by apply lower_key_not_blocked.
    + intros k' d' Hm' Heq. destruct (Hkey _ _ Hm') as (Hk' & _).
      assert (k' = k) as -> by congruence. split; [done|congruence].
Qed.

(** ** Common names *)

Lemma narrow_elem s tids ck k :
  k ∈ narrow s tids ck ↔
  k ∈ ck ∧ ∀ tid tgt, tid ∈ tids → GetElement s tid = Some tgt →
             k ∈ _param_names_lower s tgt.
Proof.
  revert ck. induction tids as [|t tids IH]; intros ck; simpl.
  - split; [|by intros [? _]]. intros Hk. split; [done|].
    intros ?? []%elem_of_nil.
  - destruct (GetElement s t) as [tgt|] eqn:Ht; rewrite IH.
    + rewrite elem_of_intersection. split.
      * intros [[Hk Ht'] Hall]. split; [done|].
        intros tid tgt' [->|Hin]%elem_of_cons Hg; [congruence|eauto].
      * intros [Hk Hall]. split_and!; [done|..].
        -- apply (Hall t); [left|done].
        -- intros tid tgt' Hin. apply Hall. by right.
    + split; intros [Hk Hall]; (split; [done|]).
      * intros tid tgt' [->|Hin]%elem_of_cons Hg; [congruence|eauto].
      * intros tid tgt' Hin. apply Hall. by right.
Qed.

(** C8: the set of common parameter names does not depend on the order of
    the targets: permuting the target list leaves [common_keys] as it is. *)
Theorem common_keys_permutation s source (t1 t2 : list Z) :
  t1 ≡ₚ t2 → common_keys s source t1 = common_keys s source t2.
Proof.
  intros Hp. unfold common_keys. apply set_eq. intros k.
  rewrite !narrow_elem. split; intros [Hk Hall]; (split; [done|]);
    intros tid tgt Hin Hg;
    (apply (Hall tid tgt); [|done]); first [by rewrite Hp | by rewrite <- Hp].
Qed.

(** Grouping does not matter either: the keys common to two batches of
    targets are those common to each batch. *)
Lemma common_keys_app s source (t1 t2 : list Z) :
  common_keys s source (t1 ++ t2)
  = common_keys s source t1 ∩ common_keys s source t2.
Proof.
  unfold common_keys. apply set_eq. intros k.
  rewrite elem_of_intersection, !narrow_elem. split.
  - intros [Hk Hall].
    split; (split; [done|]); intros tid tgt Hin; apply Hall;
      rewrite elem_of_app; auto.
  - intros [[Hk H1] [_ H2]]. split; [done|].
    intros tid tgt [?|?]%elem_of_app; eauto.
Qed.

(** ** The per-field copy *)

Lemma find_param_Some n ps i :
  find_param n ps = Some i →
  ∃ p, ps !! i = Some p ∧ has_name n p = true
       ∧ ∀ j q, j < i → ps !! j = Some q → has_name n q = false.
Proof.
  revert i. induction ps as [|q ps IH]; intros i; simpl; [done|].
  destruct (has_name n q) eqn:Hq.
  - intros [= <-]. exists q. split_and!; [done..|]. intros; lia.
  - destruct (find_param n ps) as [i'|]; simpl; [|done].
    intros [= <-]. destruct (IH i' eq_refl) as (p & Hp & Hn & Hfirst).
    exists p. split_and!; [done..|].
    intros [|j] q' Hj; simpl; [by intros [= <-]|]. apply Hfirst. lia.
Qed.

Lemma find_param_param_at s elem n i :
  find_param n (elem_Parameters s elem) = Some i →
  ∃ p, param_at s (elem, i) = Some p ∧ has_name n p = true.
Proof. intros (p & ? & ? & _)%find_param_Some. by exists p. Qed.

Lemma bind_eq {A B} (m : M A) (f : A → M B) s :
  (m ≫= f) s =
  match m s with
  | (Ok a, s') => f a s'
  | (Raise msg, s') => (Raise msg, s')
  end.
Proof. reflexivity. Qed.

Lemma attr_Some {A} (f : Param → A) r s p :
  param_at s r = Some p → attr f r s = (Ok (f p), s).
Proof. intros H. unfold attr. by rewrite H. Qed.

Lemma get_param_value_eq r s p :
  param_at s r = Some p → _get_param_value r s = (read_result p, s).
Proof.
  intros H. unfold _get_param_value, read_result, stored_value.
  rewrite bind_eq, (attr_Some _ _ _ _ H).
  destruct (StorageType p) eqn:E; [done|..];
    unfold AsInteger, AsDouble, AsString, AsElementId, typed_get;
    rewrite bind_eq, (attr_Some _ _ _ _ H); unfold id;
    by destruct (ReadError p).
Qed.

Lemma Param_Set_eq r v s p :
  param_at s r = Some p → Param_Set r v s = set_result r p v s.
Proof.
  intros H. unfold Param_Set, set_result, journal. rewrite H.
  destruct (WriteError p); [done|]. destruct (IsReadOnly p); [done|].
  destruct (SetDeclined p); [done|]. by destruct (store p v).
Qed.

Lemma set_param_value_eq r v s p :
  param_at s r = Some p →
  _set_param_value r v s =
  match StorageType p with
  | DB.StorageType.None => (Ok false, s)
  | st =>
      match set_result r p (set_argument st v) s with
      | (Ok _, s') => (Ok true, s')
      | (Raise msg, s') => (Raise msg, s')
      end
  end.
Proof.
  intros H. unfold _set_param_value.
  rewrite bind_eq, (attr_Some _ _ _ _ H).
  destruct (StorageType p); [done|..];
    rewrite bind_eq, (Param_Set_eq _ _ _ _ H); unfold set_argument;
    by destruct (set_result _ _ _ _) as [[] ?].
Qed.

Lemma copy_body_eq sp tp s psrc pdst :
  param_at s sp = Some psrc → param_at s tp = Some pdst →
  try_except (copy_body sp tp) (λ e, mret (false, e)) s =
  match read_result psrc with
  | Raise msg => (Ok (false, msg), s)
  | Ok val =>
      if unresolved s (StorageType psrc) val
      then (Ok (false, "elementid not in doc"), s)
      else
        match StorageType pdst with
        | DB.StorageType.None => (Ok (false, "unsupported"), s)
        | st =>
            match set_result tp pdst (set_argument st val) s with
            | (Ok _, s') => (Ok (true, ""), s')
            | (Raise msg, s') => (Ok (false, msg), s')
            end
        end
  end.
Proof.
  intros Hs Ht. unfold try_except, copy_body.
  rewrite bind_eq, (get_param_value_eq _ _ _ Hs).
  destruct (read_result psrc) as [val|msg] eqn:Hr; [|done].
  rewrite bind_eq, (attr_Some _ _ _ _ Hs), bind_eq.
  assert (∀ s0, param_at s0 tp = Some pdst →
            (done ← _set_param_value tp val;
             if (done : bool) then mret (true, "") else mret (false, "unsupported")) s0
            = match StorageType pdst with
              | DB.StorageType.None => (Ok (false, "unsupported"), s0)
              | st =>
                  match set_result tp pdst (set_argument st val) s0 with
                  | (Ok _, s') => (Ok (true, ""), s')
                  | (Raise msg, s') => (Raise msg, s')
                  end
              end) as Hset.
  { intros s0 H0. rewrite bind_eq, (set_param_value_eq _ _ _ _ H0).
    destruct (StorageType pdst); [done|..];
      by destruct (set_result _ _ _ _) as [[] ?]. }
  unfold unresolved.
  destruct (decide (StorageType psrc = DB.StorageType.ElementId)) as [E|E].
  - rewrite E. destruct val; simpl;
      try (rewrite (Hset _ Ht); destruct (StorageType pdst); [done|..];
           by destruct (set_result _ _ _ _) as [[] ?]).
    destruct (bool_decide (i ≠ _)); simpl.
    + destruct (bool_decide (GetElement s i = None)); [done|].
      rewrite (Hset _ Ht); destruct (StorageType pdst); [done|..];
        by destruct (set_result _ _ _ _) as [[] ?].
    + rewrite (Hset _ Ht); destruct (StorageType pdst); [done|..];
        by destruct (set_result _ _ _ _) as [[] ?].
  - assert (match StorageType psrc with
            | DB.StorageType.ElementId =>
                match val with
                | PyElementId i =>
                    bool_decide (i ≠ DB.ElementId.InvalidElementId)
                    && bool_decide (GetElement s i = None)
                | _ => false
                end
            | _ => false
            end = false) as ->.
    { by destruct (StorageType psrc). }
    simpl. rewrite (Hset _ Ht); destruct (StorageType pdst); [done|..];
      by destruct (set_result _ _ _ _) as [[] ?].
Qed.

Lemma try_copy_inv src dst pname s :
  let n := _clean (Some pname) in
  ((String.eqb n "" || _is_blocked (Some n)) = true
   ∧ _try_copy_by_name src dst pname s = (Ok (false, "blocked/empty"), s))
  ∨ ((String.eqb n "" || _is_blocked (Some n)) = false
     ∧ (find_param n (elem_Parameters s src) = None
        ∨ find_param n (elem_Parameters s dst) = None)
     ∧ _try_copy_by_name src dst pname s = (Ok (false, "missing"), s))
  ∨ ((String.eqb n "" || _is_blocked (Some n)) = false
     ∧ ∃ i j psrc pdst,
         find_param n (elem_Parameters s src) = Some i
         ∧ find_param n (elem_Parameters s dst) = Some j
         ∧ param_at s (src, i) = Some psrc
         ∧ param_at s (dst, j) = Some pdst
         ∧ _try_copy_by_name src dst pname s = copy_found s (dst, j) psrc pdst).
Proof.
  intros n.
  assert (_try_copy_by_name src dst pname s =
          if String.eqb n "" || _is_blocked (Some n)
          then (Ok (false, "blocked/empty"), s)
          else
            match find_param n (elem_Parameters s src),
                  find_param n (elem_Parameters s dst) with
            | Some i, Some j =>
                (ro ← attr IsReadOnly (dst, j);
                 if (ro : bool) then mret (false, "read-only")
                 else
                   sst ← attr StorageType (src, i);
                   tst ← attr StorageType (dst, j);
                   if decide (sst ≠ tst) then mret (false, "type mismatch")
                   else try_except (copy_body (src, i) (dst, j))
                          (λ e, mret (false, e))) s
            | _, _ => (Ok (false, "missing"), s)
            end) as ->.
  { unfold _try_copy_by_name. fold n. clearbody n.
    destruct (String.eqb n "" || _is_blocked (Some n)); [done|].
    rewrite bind_eq. unfold LookupParameter at 1. cbv beta iota.
    rewrite bind_eq. unfold LookupParameter at 1. cbv beta iota.
    destruct (find_param n (elem_Parameters s src));
      by destruct (find_param n (elem_Parameters s dst)). }
  clearbody n.
  destruct (String.eqb n "" || _is_blocked (Some n)) eqn:Hb; [by left|right].
  destruct (find_param n (elem_Parameters s src)) as [i|] eqn:Hi;
    [|left; split_and!; [done|by left|done]].
  destruct (find_param n (elem_Parameters s dst)) as [j|] eqn:Hj;
    [|left; split_and!; [done|by right|done]].
  right. split; [done|].
  destruct (find_param_param_at _ _ _ _ Hi) as (psrc & Hs & _).
  destruct (find_param_param_at _ _ _ _ Hj) as (pdst & Ht & _).
  exists i, j, psrc, pdst. split_and!; try done.
  unfold copy_found.
  rewrite bind_eq, (attr_Some _ _ _ _ Ht).
  destruct (IsReadOnly pdst); [done|].
  rewrite bind_eq, (attr_Some _ _ _ _ Hs), bind_eq, (attr_Some _ _ _ _ Ht).
  destruct (decide (StorageType psrc ≠ StorageType pdst)); [done|].
  by apply copy_body_eq.
Qed.

Lemma set_result_Raise r p v s msg s' :
  set_result r p v s = (Raise msg, s') → s' = journal r v s.
Proof.
  unfold set_result. destruct (WriteError p); [congruence|].
  destruct (IsReadOnly p); [congruence|].
  destruct (SetDeclined p); [congruence|]. destruct (store p v); congruence.
Qed.

(** A [Set] call that returns was either declined, and then only
    journalled, or stored. *)
Lemma set_result_Ok r p v s u s' :
  set_result r p v s = (Ok u, s') →
  WriteError p = None ∧ IsReadOnly p = false
  ∧ ((SetDeclined p = true ∧ u = false ∧ s' = journal r v s)
     ∨ (SetDeclined p = false ∧ u = true
        ∧ ∃ p', store p v = Some p'
            ∧ s' = {| elements := put_param r p' (elements s);
                      set_calls := set_calls s ++ [(r, v)] |})).
Proof.
  unfold set_result. destruct (WriteError p); [congruence|].
  destruct (IsReadOnly p); [congruence|].
  destruct (SetDeclined p).
  { intros [= <- <-]. split_and!; try done. by left. }
  destruct (store p v) as [p'|]; [|congruence].
  intros [= <- <-]. split_and!; try done. right. eauto.
Qed.

Lemma set_result_calls r p v s x s' :
  set_result r p v s = (x, s') → set_calls s' = set_calls s ++ [(r, v)].
Proof.
  destruct x as [u|msg].
  - by intros (_ & _ & [(_ & _ & ->)|(_ & _ & p' & _ & ->)])%set_result_Ok.
  - by intros ->%set_result_Raise.
Qed.

Lemma dom_put_param r p (els : gmap Z Element) :
  dom (put_param r p els) = dom els.
Proof.
  unfold put_param. destruct (els !! r.1) eqn:E; [|done].
  rewrite dom_insert_L. apply elem_of_dom_2 in E.
  apply subseteq_union_1_L, singleton_subseteq_l, E.
Qed.

Lemma set_result_dom r p v s x s' :
  set_result r p v s = (x, s') → dom (elements s') = dom (elements s).
Proof.
  destruct x as [u|msg].
  - intros (_ & _ & [(_ & _ & ->)|(_ & _ & p' & _ & ->)])%set_result_Ok;
      [done|apply dom_put_param].
  - by intros ->%set_result_Raise.
Qed.

(** The flattened copy always returns, and a copy that did not succeed
    leaves the elements alone. *)
Lemma copy_found_returns s tp psrc pdst :
  ∃ r s', copy_found s tp psrc pdst = (Ok r, s').
Proof.
  unfold copy_found. destruct (IsReadOnly pdst); [eauto|].
  destruct (decide _); [eauto|]. destruct (read_result psrc); [|eauto].
  destruct (unresolved _ _ _); [eauto|].
  destruct (StorageType pdst); [eauto|..];
    destruct (set_result _ _ _ _) as [[] ?]; eauto.
Qed.

Lemma copy_found_failed s tp psrc pdst why s' :
  copy_found s tp psrc pdst = (Ok (false, why), s') →
  elements s' = elements s.
Proof.
  unfold copy_found. destruct (IsReadOnly pdst); [congruence|].
  destruct (decide _); [congruence|]. destruct (read_result psrc); [|congruence].
  destruct (unresolved _ _ _); [congruence|].
  destruct (StorageType pdst); [congruence|..];
    (destruct (set_result _ _ _ _) as [[] ?] eqn:E; [congruence|];
     apply set_result_Raise in E as ->; by intros [= _ <-]).
Qed.

Lemma copy_found_dom s tp psrc pdst x s' :
  copy_found s tp psrc pdst = (x, s') →
  dom (elements s') = dom (elements s).
Proof.
  unfold copy_found. destruct (IsReadOnly pdst); [congruence|].
  destruct (decide _); [congruence|]. destruct (read_result psrc); [|congruence].
  destruct (unresolved _ _ _); [congruence|].
  destruct (StorageType pdst); [congruence|..];
    (destruct (set_result _ _ _ _) as [[] ?] eqn:E;
     apply set_result_dom in E; by intros [= _ <-]).
Qed.

Lemma try_copy_returns src dst pname s :
  ∃ r s', _try_copy_by_name src dst pname s = (Ok r, s').
Proof.
  destruct (try_copy_inv src dst pname s)
    as [[_ ->]|[(_ & _ & ->)|(_ & i & j & psrc & pdst & _ & _ & _ & _ & ->)]];
    eauto using copy_found_returns.
Qed.

Lemma try_copy_dom src dst pname s x s' :
  _try_copy_by_name src dst pname s = (x, s') →
  dom (elements s') = dom (elements s).
Proof.
  destruct (try_copy_inv src dst pname s)
    as [[_ ->]|[(_ & _ & ->)|(_ & i & j & psrc & pdst & _ & _ & _ & _ & ->)]];
    [congruence..|apply copy_found_dom].
Qed.

Lemma GetElement_dom s s' id :
  dom (elements s') = dom (elements s) → GetElement s' id = GetElement s id.
Proof.
  intros Hd. unfold GetElement.
  destruct (decide (is_Some (elements s !! id))) as [H|H];
    rewrite <- elem_of_dom, <- Hd, elem_of_dom in H;
    [by rewrite decide_True|by rewrite decide_False].
Qed.

Lemma LookupParameter_inv elem n s r s' :
  LookupParameter elem n s = (Ok (Some r), s') →
  ∃ i, r = (elem, i) ∧ find_param n (elem_Parameters s elem) = Some i.
Proof.
  unfold LookupParameter. intros [= H _].
  destruct (find_param n (elem_Parameters s elem)) as [i|]; [|done].
  simpl in H. exists i. by simplify_eq.
Qed.

(** C1: when [_try_copy_by_name] returns [ok = false], whatever the reason,
    the document holds the same elements as before; in particular the
    destination element has the same parameters with the same values. *)
Theorem failed_copy_leaves_destination s src dst pname why s' :
  _try_copy_by_name src dst pname s = (Ok (false, why), s') →
  elements s' = elements s
  ∧ elem_Parameters s' dst = elem_Parameters s dst.
Proof.
  intros H.
  assert (elements s' = elements s) as He.
  { revert H. destruct (try_copy_inv src dst pname s)
      as [[_ ->]|[(_ & _ & ->)|(_ & i & j & psrc & pdst & _ & _ & _ & _ & ->)]];
      [congruence..|apply copy_found_failed]. }
  split; [done|]. unfold elem_Parameters. by rewrite He.
Qed.

(** C2, as amended: when the storage types of the two parameters differ,
    [_try_copy_by_name] returns [ok = false] and leaves the state untouched,
    journal of [Set] calls included, so no write is attempted and nothing is
    coerced.  The reason is "type mismatch" when the name is usable and the
    target is writable; an empty or blocked name and a read-only target
    are reported first, under their own reasons. *)
Theorem type_mismatch_never_writes s src dst pname sp tp psrc pdst :
  LookupParameter src (_clean (Some pname)) s = (Ok (Some sp), s) →
  LookupParameter dst (_clean (Some pname)) s = (Ok (Some tp), s) →
  param_at s sp = Some psrc →
  param_at s tp = Some pdst →
  StorageType psrc ≠ StorageType pdst →
  _try_copy_by_name src dst pname s =
  (Ok (false,
       if String.eqb (_clean (Some pname)) ""
          || _is_blocked (Some (_clean (Some pname)))
       then "blocked/empty"
       else if IsReadOnly pdst then "read-only" else "type mismatch"),
   s).
Proof.
  intros (i & -> & Hi)%LookupParameter_inv (j & -> & Hj)%LookupParameter_inv
    Hs Ht Hne.
  destruct (try_copy_inv src dst pname s)
    as [[Hb ->]|[(_ & [?|?] & _)|(Hb & i' & j' & ps & pt & Hi' & Hj' & Hs' & Ht' & ->)]];
    [|congruence..|].
  - by rewrite Hb.
  - rewrite Hb. simplify_eq. unfold copy_found.
    destruct (IsReadOnly pdst); [done|]. by rewrite decide_True.
Qed.

(** ** What a successful write leaves behind *)

Lemma store_Some p v p' :
  store p v = Some p' →
  p_Definition p' = p_Definition p ∧ StorageType p' = StorageType p
  ∧ ReadError p' = ReadError p ∧ stored_value p' = v.
Proof.
  unfold store, stored_value.
  destruct v, (StorageType p) eqn:E; intros [= <-]; simpl; by rewrite ?E.
Qed.

Lemma elem_Parameters_put s r p p0 calls :
  param_at s r = Some p0 →
  elem_Parameters {| elements := put_param r p (elements s); set_calls := calls |} r.1
  = <[r.2 := p]> (elem_Parameters s r.1).
Proof.
  unfold param_at, elem_Parameters, put_param. simpl.
  destruct (elements s !! r.1) as [e|] eqn:E; [|by rewrite lookup_nil].
  intros _. by rewrite lookup_insert_eq.
Qed.

Lemma param_at_put s r p p0 calls :
  param_at s r = Some p0 →
  param_at {| elements := put_param r p (elements s); set_calls := calls |} r
  = Some p.
Proof.
  intros H. unfold param_at at 1. rewrite (elem_Parameters_put _ _ _ _ _ H).
  apply list_lookup_insert_eq. by eapply lookup_lt_Some.
Qed.

Lemma find_param_insert n ps j p p' :
  ps !! j = Some p → has_name n p' = has_name n p →
  find_param n (<[j := p']> ps) = find_param n ps.
Proof.
  revert j. induction ps as [|q ps IH]; intros [|j]; simpl; try done.
  - intros [= ->] ->. done.
  - intros Hj Hn. by rewrite (IH _ Hj Hn).
Qed.


Lemma store_fields p v p' :
  store p v = Some p' →
  p_Definition p' = p_Definition p ∧ StorageType p' = StorageType p
  ∧ IsReadOnly p' = IsReadOnly p ∧ ReadError p' = ReadError p
  ∧ WriteError p' = WriteError p ∧ stored_value p' = v.
Proof.
  unfold store, stored_value.
  destruct v, (StorageType p) eqn:E; intros [= <-]; simpl; by rewrite ?E.
Qed.

Lemma store_SetDeclined p v p' :
  store p v = Some p' → SetDeclined p' = SetDeclined p.
Proof.
  unfold store.
  destruct v, (StorageType p) eqn:E; intros [= <-]; simpl; by rewrite ?E.
Qed.

Lemma store_again p v p' : store p v = Some p' → store p' v = Some p'.
Proof.
  unfold store.
  destruct v, (StorageType p) eqn:E; intros [= <-]; simpl; by rewrite ?E.
Qed.

Lemma store_same_kind p v :
  StorageType p ≠ DB.StorageType.None →
  (∃ q, StorageType q = StorageType p ∧ v = stored_value q) →
  is_Some (store p (set_argument (StorageType p) v)).
Proof.
  intros Hst (q & Hq & ->). unfold store, set_argument, stored_value.
  rewrite Hq. destruct (StorageType p); try done; eauto.
  destruct (string_value q); eauto.
Qed.

(** The successful branch of the copy, spelled out: the host either
    declined the call, which the script does not notice, or stored the
    argument. *)
Lemma copy_found_success s tp psrc pdst why s' :
  copy_found s tp psrc pdst = (Ok (true, why), s') →
  why = ""
  ∧ IsReadOnly pdst = false
  ∧ StorageType psrc = StorageType pdst
  ∧ StorageType pdst ≠ DB.StorageType.None
  ∧ ReadError psrc = None
  ∧ WriteError pdst = None
  ∧ unresolved s (StorageType psrc) (stored_value psrc) = false
  ∧ ((SetDeclined pdst = true
      ∧ s' = journal tp (set_argument (StorageType pdst) (stored_value psrc)) s)
     ∨ (SetDeclined pdst = false
        ∧ ∃ p', store pdst (set_argument (StorageType pdst) (stored_value psrc))
                = Some p'
            ∧ s' = {| elements := put_param tp p' (elements s);
                      set_calls := set_calls s
                        ++ [(tp, set_argument (StorageType pdst)
                                   (stored_value psrc))] |})).
Proof.
  unfold copy_found. destruct (IsReadOnly pdst); [congruence|].
  destruct (decide _) as [|Heq]; [congruence|]. apply dec_stable in Heq.
  unfold read_result. rewrite Heq.
  destruct (StorageType pdst) eqn:Est;
    [destruct (unresolved _ _ _); congruence|..];
    (destruct (ReadError psrc) as [msg|]; [congruence|];
     destruct (unresolved _ _ _); [congruence|];
     destruct (set_result _ _ _ _) as [[u|msg] s0] eqn:E; [|congruence];
     apply set_result_Ok in E as (? & _ & Hcase);
     intros [= <- <-]; split_and!; try done;
     destruct Hcase as [(? & _ & ->)|(? & _ & p' & ? & ->)]; eauto).
Qed.


(** C9: [_set_param_value] on a parameter of unrecognised storage kind
    returns [False] and leaves the state as it is; on every other kind it
    makes exactly one [Set] call, whose argument is the value as read,
    except that for a String parameter an absent value becomes the empty
    string, so that call never carries [None]; the answer of [Set] is not
    looked at, so the dispatch returns [True] whenever the call returns,
    and the parameter then holds that argument unless the host declined
    the call. *)
Theorem set_param_value_dispatch s p prm value :
  param_at s p = Some prm →
  (StorageType prm = DB.StorageType.None →
     _set_param_value p value s = (Ok false, s))
  ∧ (StorageType prm ≠ DB.StorageType.None →
     ∃ r s', _set_param_value p value s = (r, s')
       ∧ set_calls s' =
           set_calls s ++ [(p, set_argument (StorageType prm) value)]
       ∧ (r = Ok true ∨ ∃ msg, r = Raise msg ∧ elements s' = elements s)
       ∧ (r = Ok true → SetDeclined prm = false →
          ∃ prm', param_at s' p = Some prm'
            ∧ stored_value prm' = set_argument (StorageType prm) value))
  ∧ (StorageType prm = DB.StorageType.String →
     set_argument (StorageType prm) value ≠ PyNone
     ∧ set_argument (StorageType prm) value
       = match value with PyNone => PyStr "" | _ => value end)
  ∧ (StorageType prm ≠ DB.StorageType.String →
     set_argument (StorageType prm) value = value).
Proof.
  intros Hp. rewrite (set_param_value_eq _ _ _ _ Hp). split_and!.
  - by intros ->.
  - intros Hst.
    destruct (set_result p prm (set_argument (StorageType prm) value) s)
      as [[u|msg] s'] eqn:E.
    + exists (Ok true), s'. split_and!.
      * destruct (StorageType prm); [done|..]; by rewrite E.
      * apply (set_result_calls _ _ _ _ _ _ E).
      * by left.
      * intros _ Hsd.
        apply set_result_Ok in E
          as (_ & _ & [(? & _)|(_ & _ & p' & Hp' & ->)]); [congruence|].
        exists p'. split; [by eapply param_at_put|].
        by apply store_Some in Hp' as (_ & _ & _ & ?).
    + exists (Raise msg), s'. split_and!.
      * destruct (StorageType prm); [done|..]; by rewrite E.
      * apply (set_result_calls _ _ _ _ _ _ E).
      * right. exists msg. split; [done|].
        by apply set_result_Raise in E as ->.
      * done.
  - intros ->. by destruct value.
  - intros Hst. unfold set_argument. by destruct (StorageType prm), value.
Qed.

(** ** Exceptions of the guarded read and write *)

Lemma read_failure_is_caught s src dst pname sp tp msg s1 :
  reaches_copy s src dst pname sp tp →
  _get_param_value sp s = (Raise msg, s1) →
  _try_copy_by_name src dst pname s = (Ok (false, msg), s1).
Proof.
  intros (Hb & (i & -> & Hi)%LookupParameter_inv
             & (j & -> & Hj)%LookupParameter_inv & Hro & st & Hst1 & Hst2) Hget.
  destruct (try_copy_inv src dst pname s)
    as [[Hb' _]|[(_ & [?|?] & _)|(_ & i' & j' & ps & pt & Hi' & Hj' & Hs & Ht & ->)]];
    [congruence..|].
  simplify_eq.
  rewrite (attr_Some IsReadOnly _ _ _ Ht) in Hro.
  rewrite (attr_Some StorageType _ _ _ Ht) in Hst2.
  rewrite (attr_Some StorageType _ _ _ Hs) in Hst1.
  rewrite (get_param_value_eq _ _ _ Hs) in Hget.
  injection Hro as Hro. injection Hst1 as Hst1. injection Hst2 as Hst2.
  injection Hget as Hget <-.
  unfold copy_found. rewrite Hro.
  rewrite decide_False by (intros ?; congruence).
  by rewrite Hget.
Qed.

Lemma write_failure_is_caught s src dst pname sp tp val msg s1 :
  reaches_copy s src dst pname sp tp →
  _get_param_value sp s = (Ok val, s) →
  (∀ i, val = PyElementId i →
        i = DB.ElementId.InvalidElementId ∨ GetElement s i ≠ None) →
  _set_param_value tp val s = (Raise msg, s1) →
  _try_copy_by_name src dst pname s = (Ok (false, msg), s1)
  ∧ elements s1 = elements s.
Proof.
  intros (Hb & (i & -> & Hi)%LookupParameter_inv
             & (j & -> & Hj)%LookupParameter_inv & Hro & st & Hst1 & Hst2)
    Hget Hres Hset.
  destruct (try_copy_inv src dst pname s)
    as [[Hb' _]|[(_ & [?|?] & _)|(_ & i' & j' & ps & pt & Hi' & Hj' & Hs & Ht & ->)]];
    [congruence..|].
  simplify_eq.
  rewrite (attr_Some IsReadOnly _ _ _ Ht) in Hro.
  rewrite (attr_Some StorageType _ _ _ Ht) in Hst2.
  rewrite (attr_Some StorageType _ _ _ Hs) in Hst1.
  rewrite (get_param_value_eq _ _ _ Hs) in Hget.
  rewrite (set_param_value_eq _ _ _ _ Ht) in Hset.
  injection Hro as Hro. injection Hst1 as Hst1. injection Hst2 as Hst2.
  injection Hget as Hget.
  unfold copy_found. rewrite Hro.
  rewrite decide_False by (intros ?; congruence).
  rewrite Hget.
  assert (unresolved s (StorageType ps) val = false) as ->.
  { unfold unresolved. destruct (StorageType ps); try done.
    destruct val as [| | | |e]; try done.
    destruct (Hres e eq_refl) as [->|Hne].
    - by rewrite bool_decide_eq_false_2 by (intros ?; done).
    - rewrite (bool_decide_eq_false_2 (GetElement s e = None)) by done.
      apply andb_false_r. }
  destruct (StorageType pt); [congruence|..];
    (destruct (set_result _ _ _ _) as [[u|m] s2] eqn:E; [congruence|];
     simplify_eq; split; [done|];
     by apply set_result_Raise in E as ->).
Qed.

(** ** The apply loop *)

Lemma add_samples_nil fs : add_samples fs [] = fs.
Proof. unfold add_samples. by rewrite take_nil, app_nil_r. Qed.

Lemma add_samples_app fs a b :
  add_samples (add_samples fs a) b = add_samples fs (a ++ b).
Proof.
  unfold add_samples. rewrite <- app_assoc. f_equal.
  rewrite take_app. f_equal. rewrite length_app, length_take. f_equal. lia.
Qed.

Lemma count_cons {A} (f : A → bool) x l :
  count f (x :: l) = (if f x then 1 else 0) + count f l.
Proof. unfold count. simpl. by destruct (f x). Qed.

Lemma count_app {A} (f : A → bool) l1 l2 :
  count f (l1 ++ l2) = count f l1 + count f l2.
Proof. unfold count. by rewrite List.filter_app, length_app. Qed.

Lemma count_split {A} (f : A → bool) l :
  count f l + count (λ x, negb (f x)) l = length l.
Proof.
  induction l as [|x l IH]; [done|]. rewrite !count_cons. simpl.
  destruct (f x); simpl; lia.
Qed.

Lemma sample_lines_cons c cs :
  sample_lines (c :: cs)
  = (if sampled c then [sample_line (call_name c) (call_why c)] else [])
    ++ sample_lines cs.
Proof. unfold sample_lines. simpl. by destruct (sampled c). Qed.

Lemma sample_lines_app a b :
  sample_lines (a ++ b) = sample_lines a ++ sample_lines b.
Proof. unfold sample_lines. by rewrite List.filter_app, fmap_app. Qed.

Lemma tally_nil r : tally [] r = r.
Proof.
  unfold tally, count. simpl. rewrite add_samples_nil, !Nat.add_0_r.
  by destruct r.
Qed.

Lemma tally_app a b r : tally (a ++ b) r = tally b (tally a r).
Proof.
  unfold tally. simpl.
  rewrite !count_app, sample_lines_app, add_samples_app, !Nat.add_assoc. done.
Qed.

Lemma sampled_reasons_spec why :
  why ∈ sampled_reasons ↔
  why = "missing" ∨ why = "read-only" ∨ why = "type mismatch"
  ∨ why = "elementid not in doc".
Proof.
  unfold sampled_reasons. rewrite !elem_of_cons, elem_of_nil. tauto.
Qed.

Lemma sampled_spec c :
  sampled c = true ↔
  call_ok c = false
  ∧ (call_why c = "missing" ∨ call_why c = "read-only"
     ∨ call_why c = "type mismatch" ∨ call_why c = "elementid not in doc").
Proof.
  unfold sampled.
  rewrite andb_true_iff, negb_true_iff, !orb_true_iff, !String.eqb_eq. tauto.
Qed.

Lemma sampled_reasons_sampled tgt pname why :
  bool_decide (why ∈ sampled_reasons)
  = sampled {| call_dst := tgt; call_name := pname;
               call_ok := false; call_why := why |}.
Proof.
  apply eq_true_iff_eq.
  rewrite bool_decide_eq_true, sampled_reasons_spec, sampled_spec. simpl. tauto.
Qed.

Lemma count_field_tally pname ok why ok_any r tgt :
  count_field pname ok why ok_any r
  = (ok_any || ok,
     tally [{| call_dst := tgt; call_name := pname;
               call_ok := ok; call_why := why |}] r).
Proof.
  unfold count_field. rewrite (sampled_reasons_sampled tgt pname why).
  unfold tally, count, sample_lines, failed, add_samples.
  destruct ok; cbn [List.filter call_ok negb length].
  - assert (sampled {| call_dst := tgt; call_name := pname;
                       call_ok := true; call_why := why |} = false) as ->
      by done.
    simpl. rewrite orb_true_r, take_nil, app_nil_r, Nat.add_0_r. done.
  - rewrite orb_false_r, Nat.add_0_r. do 2 f_equal.
    destruct (sampled _); simpl;
      [|by rewrite take_nil, app_nil_r].
    destruct (Nat.ltb_spec (length (fail_samples r)) 10).
    + destruct (10 - length (fail_samples r)) eqn:E; [lia|]. simpl.
      by rewrite take_nil.
    + replace (10 - length (fail_samples r)) with 0 by lia.
      by rewrite app_nil_r.
Qed.

Lemma copy_fields_calls source tgt names ok_any r s :
  copy_fields source tgt names ok_any r s
  = (Ok (ok_any || existsb call_ok (field_calls source tgt names s).1,
         tally (field_calls source tgt names s).1 r),
     (field_calls source tgt names s).2).
Proof.
  revert ok_any r s. induction names as [|pname rest IH]; intros ok_any r s.
  { simpl. by rewrite orb_false_r, tally_nil. }
  simpl. rewrite bind_eq.
  destruct (try_copy_returns source tgt pname s) as ([ok why] & s' & ->).
  simpl. rewrite (count_field_tally pname ok why ok_any r tgt), IH.
  destruct (field_calls source tgt rest s') as [cs s''] eqn:E. simpl.
  rewrite orb_assoc. f_equal. f_equal.
  by rewrite <- (tally_app [_] cs).
Qed.

Lemma field_calls_shape source tgt names s :
  call_name <$> (field_calls source tgt names s).1 = names
  ∧ Forall (λ c, call_dst c = tgt) (field_calls source tgt names s).1
  ∧ dom (elements (field_calls source tgt names s).2) = dom (elements s).
Proof.
  revert s. induction names as [|pname rest IH]; intros s; simpl; [done|].
  destruct (try_copy_returns source tgt pname s) as ([ok why] & s' & E).
  rewrite E. apply try_copy_dom in E.
  destruct (IH s') as (Hn & Hd & Hdom).
  destruct (field_calls source tgt rest s') as [cs s'']. simpl in *.
  split_and!; [by f_equal|by constructor|congruence].
Qed.

Lemma tally_groups_nil r : tally_groups [] r = r.
Proof.
  unfold tally_groups, count. simpl.
  rewrite add_samples_nil, !Nat.add_0_r. by destruct r.
Qed.

Lemma tally_groups_cons tid cs gs r :
  tally_groups ((tid, cs) :: gs) r
  = tally_groups gs (count_element (existsb call_ok cs) (tally cs r)).
Proof.
  unfold tally_groups. simpl.
  rewrite !count_cons, !count_app, sample_lines_app, <- add_samples_app.
  unfold updated, count_element, tally. simpl.
  destruct (existsb call_ok cs); simpl; f_equal;
    first [lia | apply Nat.add_assoc].
Qed.

Lemma apply_copy_calls source tids names r s :
  apply_copy source tids names r s
  = (Ok (tally_groups (target_calls source tids names s).1 r),
     (target_calls source tids names s).2).
Proof.
  revert r s. induction tids as [|tid rest IH]; intros r s.
  { simpl. by rewrite tally_groups_nil. }
  simpl. rewrite bind_eq.
  destruct (GetElement s tid) as [tgt|] eqn:Hg.
  - rewrite bind_eq, copy_fields_calls.
    destruct (field_calls source tgt names s) as [cs s1]. simpl.
    rewrite IH.
    destruct (target_calls source rest names s1) as [gs s2]. simpl.
    by rewrite tally_groups_cons.
  - rewrite IH.
    destruct (target_calls source rest names s) as [gs s2]. simpl.
    by rewrite tally_groups_cons, tally_nil.
Qed.

Lemma target_calls_shape source tids names s :
  Forall2 (λ tid g,
             g.1 = tid
             ∧ call_name <$> g.2 = (if GetElement s tid is Some _ then names else [])
             ∧ Forall (λ c, call_dst c = tid) g.2)
    tids (target_calls source tids names s).1
  ∧ dom (elements (target_calls source tids names s).2) = dom (elements s).
Proof.
  revert s. induction tids as [|tid rest IH]; intros s; simpl; [by split|].
  destruct (GetElement s tid) as [tgt|] eqn:Hg.
  - assert (tgt = tid) as ->.
    { unfold GetElement in Hg. by destruct (decide _); simplify_eq. }
    destruct (field_calls_shape source tid names s) as (Hn & Hd & Hdom).
    destruct (field_calls source tid names s) as [cs s1]. simpl in *.
    destruct (IH s1) as [Hall Hdom'].
    destruct (target_calls source rest names s1) as [gs s2]. simpl in *.
    split; [|congruence]. constructor; [by rewrite Hg|].
    eapply Forall2_impl; [exact Hall|]. intros t g (? & Hnm & ?).
    split_and!; try done. by rewrite <- (GetElement_dom s s1 t Hdom).
  - destruct (IH s) as [Hall Hdom'].
    destruct (target_calls source rest names s) as [gs s2]. simpl in *.
    split; [|done]. constructor; [by rewrite Hg|done].
Qed.

Lemma groups_length s names tids (gs : list (Z * list Call)) :
  Forall2 (λ tid g,
             g.1 = tid
             ∧ call_name <$> g.2 = (if GetElement s tid is Some _ then names else [])
             ∧ Forall (λ c, call_dst c = tid) g.2) tids gs →
  length gs = length tids
  ∧ length (concat gs.*2) = length names * count (resolves s) tids.
Proof.
  induction 1 as [|tid g tids gs (_ & Hn & _) _ [IH1 IH2]]; csimpl.
  { split; [done|]. unfold count. simpl. lia. }
  split; [by rewrite IH1|].
  rewrite length_app, count_cons, IH2.
  apply (f_equal length) in Hn. rewrite length_fmap in Hn. rewrite Hn.
  unfold resolves. destruct (GetElement s tid); simpl; lia.
Qed.

Lemma sample_lines_elem line cs :
  line ∈ sample_lines cs ↔
  ∃ c, c ∈ cs ∧ sampled c = true
       ∧ line = sample_line (call_name c) (call_why c).
Proof.
  unfold sample_lines. rewrite list_elem_of_fmap. split.
  - intros (c & -> & Hc). apply list_elem_of_In, List.filter_In in Hc as [Hin Hs].
    exists c. split_and!; [by apply list_elem_of_In|done..].
  - intros (c & Hin & Hs & ->). exists c. split; [done|].
    apply list_elem_of_In, List.filter_In. split; [by apply list_elem_of_In|done].
Qed.

(** C6, as amended: the apply loop returns, and its counters are those of
    the invocations it made: one per selected name on every target that
    resolves, in order, none on a target that does not; [sets_ok] counts
    the successful invocations and [sets_fail] the others; a target is
    counted as updated exactly when one of its invocations succeeded and
    as skipped otherwise; the samples are the first ten failures whose
    reason string is, to the letter, "missing", "read-only",
    "type mismatch" or "elementid not in doc", all of them when there are
    at most ten.  The loop looks at the reason string only: the message of
    a caught exception is quoted when it is one of these four strings and
    never otherwise. *)
Theorem run_aggregation s source target_ids picked_names :
  let groups := (target_calls source target_ids picked_names s).1 in
  let calls := concat groups.*2 in
  let quoted (c : Call) : Prop :=
    call_ok c = false
    ∧ (call_why c = "missing" ∨ call_why c = "read-only"
       ∨ call_why c = "type mismatch"
       ∨ call_why c = "elementid not in doc") in
  ∃ r s', apply_copy source target_ids picked_names run0 s = (Ok r, s')
    ∧ Forall2 (λ tid g,
                 g.1 = tid
                 ∧ call_name <$> g.2
                   = (if GetElement s tid is Some _ then picked_names else [])
                 ∧ Forall (λ c, call_dst c = tid) g.2)
        target_ids groups
    ∧ sets_ok r = count call_ok calls
    ∧ sets_fail r = count failed calls
    ∧ sets_ok r + sets_fail r = length calls
    ∧ elem_updated r = count updated groups
    ∧ elem_skipped r = count (λ g, negb (updated g)) groups
    ∧ elem_updated r + elem_skipped r = length target_ids
    ∧ (∀ c, sampled c = true ↔ quoted c)
    ∧ fail_samples r = take 10 (sample_lines calls)
    ∧ length (fail_samples r) ≤ 10
    ∧ (∀ line, line ∈ fail_samples r →
         ∃ c, c ∈ calls ∧ quoted c
              ∧ line = sample_line (call_name c) (call_why c))
    ∧ (count sampled calls ≤ 10 →
       ∀ c, c ∈ calls → quoted c →
         sample_line (call_name c) (call_why c) ∈ fail_samples r).
Proof.
  intros groups calls quoted. rewrite apply_copy_calls. fold groups.
  destruct (target_calls_shape source target_ids picked_names s) as [Hall _].
  fold groups in Hall.
  destruct (groups_length _ _ _ _ Hall) as [Hlen _].
  eexists _, _. split; [done|]. unfold tally_groups, run0, add_samples.
  cbn [elem_updated elem_skipped sets_ok sets_fail fail_samples
       length app Nat.add Nat.sub].
  fold calls.
  split_and!; try done.
  - rewrite <- (count_split call_ok calls). done.
  - by rewrite count_split.
  - intros c. apply sampled_spec.
  - rewrite length_take. lia.
  - intros line (c & Hin & Hs & ->)%subseteq_take%sample_lines_elem.
    exists c. split_and!; [done| |done]. by apply sampled_spec.
  - intros Hfew c Hin Hq. rewrite take_ge.
    + apply sample_lines_elem. exists c. split_and!; [done| |done].
      by apply sampled_spec.
    + unfold sample_lines. rewrite length_fmap. exact Hfew.
Qed.

(** ** The picking loop *)

Lemma elem_of_list_remove x e l : x ∈ list_remove e l → x ∈ l.
Proof.
  induction l as [|y l IH]; simpl; [done|].
  destruct (decide (e = y)); [by right|].
  intros [->|H]%elem_of_cons; [by left|right; auto].
Qed.

Lemma NoDup_list_remove e l : NoDup l → NoDup (list_remove e l).
Proof.
  induction 1 as [|y l Hy Hl IH]; simpl; [constructor|].
  destruct (decide (e = y)); [done|].
  constructor; [|done]. intros H%elem_of_list_remove. done.
Qed.

Lemma pick_targets_inv s source evs t :
  source ∉ t → NoDup t →
  (source ∉ picked_ids (pick_targets s source evs t))
  ∧ NoDup (picked_ids (pick_targets s source evs t)).
Proof.
  revert t. induction evs as [|[r|ex] evs IH]; intros t Hs Hn; simpl.
  - done.
  - destruct (GetElement s r) as [e|]; [|by apply IH].
    destruct (decide (e = source)); [by apply IH|].
    destruct (decide (e ∈ t)).
    + apply IH; [|by apply NoDup_list_remove].
      intros H%elem_of_list_remove. done.
    + apply IH.
      * rewrite elem_of_app, list_elem_of_singleton. intros [?|?]; done.
      * apply NoDup_app. split_and!; [done| |apply NoDup_singleton].
        intros x Hx ->%list_elem_of_singleton. done.
  - destruct (_is_cancel ex); simpl; [done|]. split; [|constructor].
    apply not_elem_of_nil.
Qed.



(** C5: [_try_copy_by_name] always returns a pair and never raises; an
    exception raised by the read of the source value or by the write of
    the target value becomes the result [(False, message)], the document
    staying as it was; and the apply loop always runs to its end, making
    one counted invocation per selected name on every target that
    resolves. *)
Theorem field_failures_never_abort s source :
  (∀ dst pname,
     ∃ ok why s', _try_copy_by_name source dst pname s = (Ok (ok, why), s'))
  ∧ (∀ dst pname sp tp msg s1,
       reaches_copy s source dst pname sp tp →
       _get_param_value sp s = (Raise msg, s1) →
       _try_copy_by_name source dst pname s = (Ok (false, msg), s1))
  ∧ (∀ dst pname sp tp val msg s1,
       reaches_copy s source dst pname sp tp →
       _get_param_value sp s = (Ok val, s) →
       (∀ i, val = PyElementId i →
             i = DB.ElementId.InvalidElementId ∨ GetElement s i ≠ None) →
       _set_param_value tp val s = (Raise msg, s1) →
       _try_copy_by_name source dst pname s = (Ok (false, msg), s1)
       ∧ elements s1 = elements s)
  ∧ (∀ target_ids picked_names,
       ∃ r s', apply_copy source target_ids picked_names run0 s = (Ok r, s')
         ∧ sets_ok r + sets_fail r
           = length picked_names * count (resolves s) target_ids).
Proof.
  split_and!.
  - intros dst pname.
    destruct (try_copy_returns source dst pname s) as ([ok why] & s' & ->).
    eauto.
  - intros. by eapply read_failure_is_caught.
  - intros. by eapply write_failure_is_caught.
  - intros target_ids picked_names. rewrite apply_copy_calls.
    destruct (target_calls_shape source target_ids picked_names s) as [Hall _].
    destruct (groups_length _ _ _ _ Hall) as [_ Hlen].
    eexists _, _. split; [done|]. unfold tally_groups, run0.
    cbn [sets_ok sets_fail Nat.add]. rewrite <- Hlen.
    apply (count_split call_ok).
Qed.

(** * Further properties of the script *)

(** ** More on names *)

Lemma is_blocked_clean n : _is_blocked (Some (_clean n)) = _is_blocked n.
Proof. unfold _is_blocked. by rewrite clean_idem. Qed.

Lemma is_blocked_lower n : _is_blocked (Some (lower n)) = _is_blocked (Some n).
Proof.
  unfold _is_blocked, _clean. simpl. by rewrite strip_lower, lower_idem.
Qed.

(** X3: a name that is blocked, in any casing and padding, or blank is
    rejected by [_try_copy_by_name] before any lookup, and the state is
    untouched. *)
Theorem blocked_or_blank_name_is_never_copied s src dst pname :
  _is_blocked (Some pname) = true ∨ strip pname = "" →
  _try_copy_by_name src dst pname s = (Ok (false, "blocked/empty"), s).
Proof.
  intros H. unfold _try_copy_by_name.
  assert (String.eqb (_clean (Some pname)) ""
          || _is_blocked (Some (_clean (Some pname))) = true) as ->; [|done].
  destruct H as [H|H].
  - rewrite is_blocked_clean, H. apply orb_true_r.
  - unfold _clean. simpl. by rewrite H.
Qed.

(** X4: [_get_param_value] leaves the state as it is, and a value it returns
    has the kind of the parameter's storage type ([None] only for a String
    without value or an unrecognised kind). *)
Theorem get_param_value_only_reads p s r s' :
  _get_param_value p s = (r, s') →
  s' = s
  ∧ ∀ prm v, param_at s p = Some prm → r = Ok v →
      match StorageType prm with
      | DB.StorageType.Double => ∃ x, v = PyFloat x
      | DB.StorageType.Integer => ∃ n, v = PyInt n
      | DB.StorageType.String => v = PyNone ∨ ∃ x, v = PyStr x
      | DB.StorageType.ElementId => ∃ i, v = PyElementId i
      | DB.StorageType.None => v = PyNone
      end.
Proof.
  destruct (param_at s p) as [prm|] eqn:Hp.
  - rewrite (get_param_value_eq _ _ _ Hp). intros [= <- <-]. split; [done|].
    intros prm' v [= <-]. unfold read_result, stored_value.
    destruct (StorageType prm); [by intros [= <-]|..];
      (destruct (ReadError prm); [done|]; intros [= <-]; eauto).
    destruct (string_value prm); eauto.
  - unfold _get_param_value. rewrite bind_eq. unfold attr. rewrite Hp.
    intros [= <- <-]. split; [done|]. intros ?? [=].
Qed.

(** ** The catalogue and the name sets *)

Lemma map_loop_dom ps (m : gmap string ParameterDescriptor) :
  dom (map_loop ps m) = names_loop ps (dom m).
Proof.
  revert m. induction ps as [|p ps IH]; intros m; simpl; [done|].
  destruct (p_Definition_Name p) as [raw|]; [|apply IH].
  destruct (String.eqb (_clean raw) "" || _is_blocked (Some (_clean raw)));
    [apply IH|].
  destruct (decide (is_Some (m !! lower (_clean raw)))) as [Hin|Hno].
  - rewrite IH. f_equal. apply elem_of_dom in Hin.
    apply set_eq. intros x. rewrite elem_of_union, elem_of_singleton.
    first [split; [by intros [->|?]|by right]
          |split; [by right|by intros [->|?]]].
  - rewrite IH. f_equal. apply dom_insert_L.
Qed.

Lemma catalogue_dom s elem :
  dom (_build_source_param_map s elem) = _param_names_lower s elem.
Proof.
  unfold _build_source_param_map, _param_names_lower.
  by rewrite map_loop_dom, dom_empty_L.
Qed.

(** X5: the keys of the catalogue built by [_build_source_param_map] are
    exactly the names [_param_names_lower] returns for the same element. *)
Theorem catalogue_keys_are_the_names s elem :
  dom (_build_source_param_map s elem) = _param_names_lower s elem.
Proof.
  unfold _build_source_param_map, _param_names_lower.
  by rewrite map_loop_dom, dom_empty_L.
Qed.

(** X6: a key is common exactly when it is a name of the source and of every
    target that the document holds. *)
Theorem common_keys_spec s source target_ids k :
  k ∈ common_keys s source target_ids ↔
  k ∈ _param_names_lower s source
  ∧ ∀ tid, tid ∈ target_ids → is_Some (elements s !! tid) →
           k ∈ _param_names_lower s tid.
Proof.
  unfold common_keys. rewrite narrow_elem, catalogue_dom.
  split; intros [Hk Hall]; (split; [done|]).
  - intros tid Hin Hs. apply (Hall tid tid Hin).
    unfold GetElement. by rewrite decide_True.
  - intros tid tgt Hin Hg. unfold GetElement in Hg.
    destruct (decide _); simplify_eq. by apply Hall.
Qed.

(** X7: further targets can only remove common keys, and one target that
    shares no name with the source leaves none. *)
Theorem more_targets_fewer_keys s source (ts more : list Z) tid :
  common_keys s source (ts ++ more) ⊆ common_keys s source ts
  ∧ (tid ∈ ts → is_Some (elements s !! tid) →
     _param_names_lower s source ∩ _param_names_lower s tid = ∅ →
     common_keys s source ts = ∅).
Proof.
  split.
  - rewrite common_keys_app. apply intersection_subseteq_l.
  - intros Hin Hs Hdisj. apply set_eq. intros k.
    unfold common_keys. rewrite narrow_elem, catalogue_dom.
    split; [|by intros []%not_elem_of_empty].
    intros [Hk Hall]. rewrite <- Hdisj. apply elem_of_intersection.
    split; [done|]. apply (Hall tid tid Hin).
    unfold GetElement. by rewrite decide_True.
Qed.

(** ** What one copy touches *)

(** Any branch: the state afterwards is the state before, or the state
    before with one refused or declined call journalled, or the state of
    a stored write. *)
Lemma copy_found_state s tp psrc pdst x s' :
  copy_found s tp psrc pdst = (x, s') →
  s' = s
  ∨ (∃ v, s' = journal tp v s)
  ∨ (∃ v p', store pdst v = Some p'
       ∧ x = Ok (true, "")
       ∧ s' = {| elements := put_param tp p' (elements s);
                 set_calls := set_calls s ++ [(tp, v)] |}).
Proof.
  unfold copy_found. destruct (IsReadOnly pdst); [intros [= _ <-]; by left|].
  destruct (decide _); [intros [= _ <-]; by left|].
  destruct (read_result psrc); [|intros [= _ <-]; by left].
  destruct (unresolved _ _ _); [intros [= _ <-]; by left|].
  destruct (StorageType pdst); [intros [= _ <-]; by left|..];
    (destruct (set_result _ _ _ _) as [[u|msg] s0] eqn:E;
     [apply set_result_Ok in E
        as (_ & _ & [(_ & _ & ->)|(_ & _ & p' & Hp' & ->)]);
      intros [= <- <-]; right; [left|right]; eauto
     |apply set_result_Raise in E as ->; intros [= _ <-]; right; left; eauto]).
Qed.

Lemma put_param_lookup_ne r p (els : gmap Z Element) e :
  e ≠ r.1 → put_param r p els !! e = els !! e.
Proof.
  intros Hne. unfold put_param. destruct (els !! r.1); [|done].
  by rewrite lookup_insert_ne.
Qed.

Lemma elem_Parameters_put_ne s r p calls e :
  e ≠ r.1 →
  elem_Parameters {| elements := put_param r p (elements s);
                     set_calls := calls |} e
  = elem_Parameters s e.
Proof.
  intros Hne. unfold elem_Parameters. simpl.
  by rewrite put_param_lookup_ne.
Qed.

(** X8: whatever [_try_copy_by_name] returns, every element other than the
    destination is as before, the destination has as many parameters as
    before, every parameter other than the one found under the name is as
    before, and no parameter changes its definition, storage type or
    read-only flag. *)
Theorem copy_touches_one_parameter s src dst pname x s' :
  _try_copy_by_name src dst pname s = (x, s') →
  (∀ e, e ≠ dst → elements s' !! e = elements s !! e)
  ∧ length (elem_Parameters s' dst) = length (elem_Parameters s dst)
  ∧ (∀ i, find_param (_clean (Some pname)) (elem_Parameters s dst) ≠ Some i →
          elem_Parameters s' dst !! i = elem_Parameters s dst !! i)
  ∧ (∀ i p p', elem_Parameters s dst !! i = Some p →
               elem_Parameters s' dst !! i = Some p' →
               p_Definition p' = p_Definition p
               ∧ StorageType p' = StorageType p
               ∧ IsReadOnly p' = IsReadOnly p).
Proof.
  assert (∀ s0, elements s0 = elements s →
            (∀ e, e ≠ dst → elements s0 !! e = elements s !! e)
            ∧ length (elem_Parameters s0 dst) = length (elem_Parameters s dst)
            ∧ (∀ i, find_param (_clean (Some pname)) (elem_Parameters s dst) ≠ Some i →
                    elem_Parameters s0 dst !! i = elem_Parameters s dst !! i)
            ∧ (∀ i p p', elem_Parameters s dst !! i = Some p →
                         elem_Parameters s0 dst !! i = Some p' →
                         p_Definition p' = p_Definition p
                         ∧ StorageType p' = StorageType p
                         ∧ IsReadOnly p' = IsReadOnly p)) as Hsame.
  { intros s0 He. unfold elem_Parameters. rewrite He.
    split_and!; try done. intros i p p' H1 H2. by simplify_eq. }
  destruct (try_copy_inv src dst pname s)
    as [[_ ->]|[(_ & _ & ->)|(_ & i & j & psrc & pdst & Hi & Hj & Hs & Ht & ->)]];
    [intros [= _ <-]; by apply Hsame..|].
  intros [->|[(v & ->)|(v & p' & Hp' & _ & ->)]]%copy_found_state;
    [by apply Hsame..|].
  apply store_fields in Hp' as (Hd & Hst & Hro & _ & _ & _).
  split_and!.
  - intros e Hne. simpl. by apply put_param_lookup_ne.
  - rewrite (elem_Parameters_put s (dst, j) p' pdst _ Ht). apply length_insert.
  - intros i' Hi'. rewrite (elem_Parameters_put s (dst, j) p' pdst _ Ht).
    apply list_lookup_insert_ne. simpl. congruence.
  - intros i' p p'' H1. rewrite (elem_Parameters_put s (dst, j) p' pdst _ Ht).
    simpl.
    destruct (decide (j = i')) as [<-|Hne].
    + rewrite list_lookup_insert_eq by (by eapply lookup_lt_Some).
      intros [= <-]. unfold param_at in Ht. simpl in Ht. by simplify_eq.
    + rewrite list_lookup_insert_ne by done. intros. by simplify_eq.
Qed.

(** X9: one run of [_try_copy_by_name] makes at most one [Set] call, on the
    parameter found under the name on the destination; when it makes none,
    it reports failure. *)
Theorem copy_makes_at_most_one_set_call s src dst pname ok why s' :
  _try_copy_by_name src dst pname s = (Ok (ok, why), s') →
  (ok = false ∧ set_calls s' = set_calls s)
  ∨ ∃ j v, LookupParameter dst (_clean (Some pname)) s = (Ok (Some (dst, j)), s)
      ∧ set_calls s' = set_calls s ++ [((dst, j), v)].
Proof.
  destruct (try_copy_inv src dst pname s)
    as [[_ ->]|[(_ & _ & ->)|(_ & i & j & psrc & pdst & Hi & Hj & Hs & Ht & ->)]];
    [intros [= <- _ <-]; by left..|].
  assert (LookupParameter dst (_clean (Some pname)) s = (Ok (Some (dst, j)), s))
    as Hl by (unfold LookupParameter; by rewrite Hj).
  intros H. destruct (copy_found_state _ _ _ _ _ _ H)
    as [->|[(v & ->)|(v & p' & Hp' & _ & ->)]].
  - destruct ok; [|by left].
    apply copy_found_success in H as (_ & _ & _ & _ & _ & _ & _ & Hcase).
    assert (∃ v, set_calls s = set_calls s ++ [((dst, j), v)]) as [v Hs'].
    { destruct Hcase as [(_ & Hs')|(_ & p' & _ & Hs')];
        apply (f_equal set_calls) in Hs'; unfold journal in Hs';
        simpl in Hs'; eauto. }
    apply (f_equal length) in Hs'. rewrite length_app in Hs'. simpl in Hs'. lia.
  - right. by exists j, v.
  - right. by exists j, v.
Qed.

Lemma reaches_copy_inv s src dst pname sp tp :
  reaches_copy s src dst pname sp tp →
  ∃ i j psrc pdst,
    sp = (src, i) ∧ tp = (dst, j)
    ∧ param_at s sp = Some psrc ∧ param_at s tp = Some pdst
    ∧ IsReadOnly pdst = false
    ∧ StorageType psrc = StorageType pdst
    ∧ _try_copy_by_name src dst pname s = copy_found s tp psrc pdst.
Proof.
  intros (Hb & (i & -> & Hi)%LookupParameter_inv
             & (j & -> & Hj)%LookupParameter_inv & Hro & st & Hst1 & Hst2).
  destruct (try_copy_inv src dst pname s)
    as [[Hb' _]|[(_ & [?|?] & _)|(_ & i' & j' & ps & pt & Hi' & Hj' & Hs & Ht & ->)]];
    [congruence..|].
  simplify_eq.
  rewrite (attr_Some IsReadOnly _ _ _ Ht) in Hro.
  rewrite (attr_Some StorageType _ _ _ Ht) in Hst2.
  rewrite (attr_Some StorageType _ _ _ Hs) in Hst1.
  injection Hro as Hro. injection Hst1 as Hst1. injection Hst2 as Hst2.
  exists i, j, ps, pt. split_and!; try done. congruence.
Qed.

Lemma unresolved_false s st i :
  i = DB.ElementId.InvalidElementId ∨ is_Some (elements s !! i) →
  unresolved s st (PyElementId i) = false.
Proof.
  intros H. unfold unresolved. destruct st; try done.
  destruct H as [->|H].
  - by rewrite bool_decide_eq_false_2 by (intros ?; done).
  - rewrite (bool_decide_eq_false_2 (GetElement s i = None)).
    + apply andb_false_r.
    + unfold GetElement. by rewrite decide_True.
Qed.

Lemma unresolved_false_inv s i :
  unresolved s DB.StorageType.ElementId (PyElementId i) = false →
  i = DB.ElementId.InvalidElementId ∨ is_Some (elements s !! i).
Proof.
  unfold unresolved. intros [H|H]%andb_false_iff.
  - left. apply bool_decide_eq_false in H. by apply dec_stable in H.
  - right. apply bool_decide_eq_false in H. unfold GetElement in H.
    by destruct (decide (is_Some (elements s !! i))).
Qed.

(** Past the guards and the read, the copy is the [Set] call. *)
Lemma copy_found_goes_through s tp psrc pdst :
  IsReadOnly pdst = false →
  StorageType psrc = StorageType pdst →
  StorageType pdst ≠ DB.StorageType.None →
  ReadError psrc = None →
  unresolved s (StorageType pdst) (stored_value psrc) = false →
  copy_found s tp psrc pdst =
  match set_result tp pdst
          (set_argument (StorageType pdst) (stored_value psrc)) s with
  | (Ok _, s') => (Ok (true, ""), s')
  | (Raise msg, s') => (Ok (false, msg), s')
  end.
Proof.
  intros Hro Hst Hkind Hre Hu. unfold copy_found, read_result.
  rewrite Hro, decide_False by (intros ?; congruence).
  rewrite Hst, Hre.
  destruct (StorageType pdst) eqn:E; [done|..]; cbv beta iota; by rewrite Hu.
Qed.

Lemma set_result_declined r p v s :
  WriteError p = None → IsReadOnly p = false → SetDeclined p = true →
  set_result r p v s = (Ok false, journal r v s).
Proof. intros Hwe Hro Hsd. unfold set_result. by rewrite Hwe, Hro, Hsd. Qed.

Lemma set_result_stored r p v s p' :
  WriteError p = None → IsReadOnly p = false → SetDeclined p = false →
  store p v = Some p' →
  set_result r p v s
  = (Ok true, {| elements := put_param r p' (elements s);
                 set_calls := set_calls s ++ [(r, v)] |}).
Proof.
  intros Hwe Hro Hsd Hp'. unfold set_result. by rewrite Hwe, Hro, Hsd, Hp'.
Qed.

(** X10: when the guards let the field through, the storage type is a
    recognised one, the host refuses neither the read nor the write and an
    element reference resolves or is the invalid id, the copy makes its
    [Set] call and reports success; the destination parameter then holds
    the value handed to [Set], unless the host declined the call, in which
    case the elements are as before. *)
Theorem copy_succeeds s src dst pname sp tp psrc pdst :
  reaches_copy s src dst pname sp tp →
  param_at s sp = Some psrc →
  param_at s tp = Some pdst →
  StorageType psrc ≠ DB.StorageType.None →
  ReadError psrc = None →
  WriteError pdst = None →
  (StorageType psrc = DB.StorageType.ElementId →
   elementid_value psrc = DB.ElementId.InvalidElementId
   ∨ is_Some (elements s !! elementid_value psrc)) →
  ∃ s',
    _try_copy_by_name src dst pname s = (Ok (true, ""), s')
    ∧ set_calls s'
      = set_calls s
        ++ [(tp, set_argument (StorageType pdst) (stored_value psrc))]
    ∧ (SetDeclined pdst = false →
       ∃ p', elements s' = put_param tp p' (elements s)
         ∧ param_at s' tp = Some p'
         ∧ stored_value p'
           = set_argument (StorageType pdst) (stored_value psrc))
    ∧ (SetDeclined pdst = true → elements s' = elements s).
Proof.
  intros Hreach Hs' Ht' Hkind Hre Hwe Href.
  destruct (reaches_copy_inv _ _ _ _ _ _ Hreach)
    as (i & j & ps & pt & -> & -> & Hs & Ht & Hro & Hst & ->).
  assert (ps = psrc) as -> by congruence.
  assert (pt = pdst) as -> by congruence.
  assert (unresolved s (StorageType pdst) (stored_value psrc) = false) as Hu.
  { rewrite <- Hst.
    destruct (decide (StorageType psrc = DB.StorageType.ElementId)) as [E|E].
    - unfold stored_value. rewrite E. rewrite <- E at 1.
      by apply unresolved_false, Href.
    - unfold unresolved. by destruct (StorageType psrc). }
  rewrite copy_found_goes_through by (done || congruence).
  destruct (SetDeclined pdst) eqn:Hsd.
  - rewrite set_result_declined by done.
    eexists. split_and!; [done..| |done]. intros [=].
  - destruct (store_same_kind pdst (stored_value psrc)) as [p' Hp'];
      [congruence|by exists psrc|].
    rewrite (set_result_stored _ _ _ _ p') by done.
    eexists. split_and!; [done..| |intros [=]].
    intros _. exists p'. split_and!.
    + done.
    + by eapply param_at_put.
    + by apply store_fields in Hp' as (_ & _ & _ & _ & _ & ?).
Qed.

(** The state a successful copy leaves, with what it found. *)
Lemma try_copy_success src dst pname s why s' :
  _try_copy_by_name src dst pname s = (Ok (true, why), s') →
  ∃ i j psrc pdst,
    find_param (_clean (Some pname)) (elem_Parameters s src) = Some i
    ∧ find_param (_clean (Some pname)) (elem_Parameters s dst) = Some j
    ∧ param_at s (src, i) = Some psrc
    ∧ param_at s (dst, j) = Some pdst
    ∧ (String.eqb (_clean (Some pname)) ""
       || _is_blocked (Some (_clean (Some pname)))) = false
    ∧ why = ""
    ∧ IsReadOnly pdst = false
    ∧ StorageType psrc = StorageType pdst
    ∧ StorageType pdst ≠ DB.StorageType.None
    ∧ ReadError psrc = None
    ∧ WriteError pdst = None
    ∧ unresolved s (StorageType psrc) (stored_value psrc) = false
    ∧ ((SetDeclined pdst = true
        ∧ s' = journal (dst, j)
                 (set_argument (StorageType pdst) (stored_value psrc)) s)
       ∨ (SetDeclined pdst = false
          ∧ ∃ p', store pdst (set_argument (StorageType pdst)
                                (stored_value psrc)) = Some p'
              ∧ s' = {| elements := put_param (dst, j) p' (elements s);
                        set_calls := set_calls s
                          ++ [((dst, j),
                               set_argument (StorageType pdst)
                                 (stored_value psrc))] |})).
Proof.
  destruct (try_copy_inv src dst pname s)
    as [[_ ->]|[(_ & _ & ->)|(Hb & i & j & psrc & pdst & Hi & Hj & Hs & Ht & ->)]];
    [congruence..|].
  intros (-> & ? & ? & ? & ? & ? & ? & Hcase)%copy_found_success.
  exists i, j, psrc, pdst. split_and!; done.
Qed.

Lemma find_param_put s n j p' pdst calls e :
  param_at s (e, j) = Some pdst →
  p_Definition p' = p_Definition pdst →
  ∀ e', find_param n (elem_Parameters
                        {| elements := put_param (e, j) p' (elements s);
                           set_calls := calls |} e')
        = find_param n (elem_Parameters s e').
Proof.
  intros Ht Hd e'. destruct (decide (e' = e)) as [->|Hne].
  - rewrite (elem_Parameters_put s (e, j) p' pdst _ Ht). simpl.
    apply (find_param_insert n _ j pdst p'); [done|].
    unfold has_name. by rewrite Hd.
  - by rewrite elem_Parameters_put_ne.
Qed.

Lemma set_argument_ElementId st v i :
  set_argument st v = PyElementId i → v = PyElementId i.
Proof. by destruct st, v. Qed.

Lemma stored_value_ElementId p i :
  stored_value p = PyElementId i →
  StorageType p = DB.StorageType.ElementId ∧ elementid_value p = i.
Proof.
  unfold stored_value. destruct (StorageType p); try done.
  - by destruct (string_value p).
  - by intros [= ->].
Qed.

(** X11: a copy that reports success made one [Set] call, on the parameter
    found under the name on the destination; an element id handed to that
    call is the invalid id or the id of an element of the document, and so
    is the id an ElementId parameter holds afterwards when the host stored
    the call. *)
Theorem copied_reference_resolves s src dst pname why s' :
  _try_copy_by_name src dst pname s = (Ok (true, why), s') →
  ∃ tp v,
    LookupParameter dst (_clean (Some pname)) s' = (Ok (Some tp), s')
    ∧ set_calls s' = set_calls s ++ [(tp, v)]
    ∧ (∀ i, v = PyElementId i →
         i = DB.ElementId.InvalidElementId ∨ is_Some (elements s' !! i))
    ∧ (∀ p', param_at s' tp = Some p' →
         SetDeclined p' = false →
         StorageType p' = DB.StorageType.ElementId →
         stored_value p' = v
         ∧ (elementid_value p' = DB.ElementId.InvalidElementId
            ∨ is_Some (elements s' !! elementid_value p'))).
Proof.
  intros (i & j & psrc & pdst & Hi & Hj & Hs & Ht & _ & _ & Hro & Hst & _
          & Hre & _ & Hu & Hcase)%try_copy_success.
  exists (dst, j), (set_argument (StorageType pdst) (stored_value psrc)).
  assert (∀ e, set_argument (StorageType pdst) (stored_value psrc)
               = PyElementId e →
            e = DB.ElementId.InvalidElementId ∨ is_Some (elements s !! e))
    as Hres.
  { intros e He%set_argument_ElementId.
    destruct (stored_value_ElementId _ _ He) as [Hk _].
    rewrite He, Hk in Hu. by apply unresolved_false_inv. }
  destruct Hcase as [(Hsd & ->)|(Hsd & q & Hq & ->)].
  - split_and!.
    + unfold LookupParameter.
      change (elem_Parameters (journal _ _ s) dst) with (elem_Parameters s dst).
      by rewrite Hj.
    + done.
    + exact Hres.
    + intros p' Hp' Hsd'. change (param_at s (dst, j) = Some p') in Hp'.
      congruence.
  - pose proof (store_fields _ _ _ Hq) as (Hd & Hst' & _ & _ & _ & Hv).
    assert (∀ e, e = DB.ElementId.InvalidElementId ∨ is_Some (elements s !! e) →
              e = DB.ElementId.InvalidElementId
              ∨ is_Some (put_param (dst, j) q (elements s) !! e)) as Hdom.
    { intros e [?|Hin]; [by left|right].
      rewrite <- !elem_of_dom in *. by rewrite dom_put_param. }
    split_and!.
    + unfold LookupParameter.
      by rewrite (find_param_put s _ j q pdst _ dst Ht Hd dst), Hj.
    + done.
    + intros e He. by apply Hdom, Hres.
    + intros p' Hp' _ Hkind.
      rewrite (param_at_put s (dst, j) q pdst _ Ht) in Hp'. simplify_eq.
      split; [done|]. apply Hdom, Hres. rewrite <- Hv.
      unfold stored_value. by rewrite Hkind.
Qed.

Lemma put_param_twice r p (els : gmap Z Element) :
  put_param r p (put_param r p els) = put_param r p els.
Proof.
  unfold put_param. destruct (els !! r.1) as [e|] eqn:E; [|by rewrite E].
  rewrite lookup_insert_eq, insert_insert_eq. simpl.
  by rewrite list_insert_insert_eq.
Qed.

Lemma param_at_put_ne s r p calls r' :
  r' ≠ r →
  param_at {| elements := put_param r p (elements s); set_calls := calls |} r'
  = param_at s r'.
Proof.
  intros Hne. unfold param_at. destruct (decide (r'.1 = r.1)) as [E|E].
  - unfold elem_Parameters, put_param. simpl. rewrite E.
    destruct (elements s !! r.1) as [e|] eqn:He.
    + rewrite lookup_insert_eq. simpl. apply list_lookup_insert_ne.
      intros E2. apply Hne. destruct r, r'. simpl in *. congruence.
    + by rewrite He.
  - by rewrite elem_Parameters_put_ne.
Qed.

Lemma set_argument_twice st v :
  set_argument st (set_argument st v) = set_argument st v.
Proof. by destruct st, v. Qed.

Lemma unresolved_dom s s' st v :
  dom (elements s') = dom (elements s) →
  unresolved s' st v = unresolved s st v.
Proof.
  intros Hd. unfold unresolved. destruct st, v; try done.
  by rewrite (GetElement_dom s s' i Hd).
Qed.

(** A document with the same elements gives the copy the same parameters
    to work on. *)
Lemma try_copy_found src dst pname s i j psrc pdst :
  (String.eqb (_clean (Some pname)) ""
   || _is_blocked (Some (_clean (Some pname)))) = false →
  find_param (_clean (Some pname)) (elem_Parameters s src) = Some i →
  find_param (_clean (Some pname)) (elem_Parameters s dst) = Some j →
  param_at s (src, i) = Some psrc →
  param_at s (dst, j) = Some pdst →
  _try_copy_by_name src dst pname s = copy_found s (dst, j) psrc pdst.
Proof.
  intros Hb Hi Hj Hs Ht.
  destruct (try_copy_inv src dst pname s)
    as [[Hb' _]|[(_ & [?|?] & _)|(_ & i' & j' & ps & pt & Hi' & Hj' & Hs' & Ht' & ->)]];
    [congruence..|].
  by simplify_eq.
Qed.

(** X12: repeating a copy that reported success reports success again and
    leaves the elements as the first copy left them. *)
Theorem copy_is_idempotent s src dst pname why s' :
  _try_copy_by_name src dst pname s = (Ok (true, why), s') →
  ∃ s'', _try_copy_by_name src dst pname s' = (Ok (true, ""), s'')
    ∧ elements s'' = elements s'.
Proof.
  intros (i & j & psrc & pdst & Hi & Hj & Hs & Ht & Hb & _ & Hro & Hst
          & Hkind & Hre & Hwe & Hu & Hcase)%try_copy_success.
  rewrite Hst in Hu.
  destruct Hcase as [(Hsd & Hs1)|(Hsd & p' & Hp' & Hs1)].
  - rewrite (try_copy_found src dst pname s' i j psrc pdst);
      [|by rewrite ?Hs1..].
    rewrite copy_found_goes_through; [|by rewrite ?Hs1..].
    rewrite set_result_declined by done. by eexists.
  - pose proof (store_fields _ _ _ Hp') as (Hd & Hst' & Hro' & Hre' & Hwe' & Hv).
    pose proof (store_SetDeclined _ _ _ Hp') as Hsd'.
    remember (set_argument (StorageType pdst) (stored_value psrc)) as w eqn:Hw.
    assert (find_param (_clean (Some pname)) (elem_Parameters s' src) = Some i)
      as Hi1 by (rewrite Hs1; by rewrite (find_param_put s _ j p' pdst _ dst Ht Hd)).
    assert (find_param (_clean (Some pname)) (elem_Parameters s' dst) = Some j)
      as Hj1 by (rewrite Hs1; by rewrite (find_param_put s _ j p' pdst _ dst Ht Hd)).
    assert (param_at s' (dst, j) = Some p') as Ht1
      by (rewrite Hs1; by eapply param_at_put).
    assert (dom (elements s') = dom (elements s)) as Hdom
      by (rewrite Hs1; apply dom_put_param).
    assert (∃ q, param_at s' (src, i) = Some q
                 ∧ StorageType q = StorageType pdst
                 ∧ ReadError q = None
                 ∧ set_argument (StorageType pdst) (stored_value q) = w
                 ∧ unresolved s (StorageType pdst) (stored_value q) = false) as
      (q & Hq0 & Hq1 & Hq2 & Hq3 & Hq4).
    { destruct (decide ((src, i) = (dst, j))) as [E|E].
      - exists p'. rewrite E.
        assert (psrc = pdst) as Heq by (rewrite E in Hs; congruence).
        split; [done|]. split; [done|]. split; [congruence|]. split.
        + rewrite Hv, Hw. apply set_argument_twice.
        + rewrite Hv, Hw. clear -Hu.
          unfold unresolved, set_argument in *.
          destruct (StorageType pdst); try done;
            by destruct (stored_value psrc).
      - exists psrc. rewrite Hs1, param_at_put_ne by done.
        split_and!; try done; congruence. }
    rewrite (try_copy_found src dst pname s' i j q p') by done.
    rewrite copy_found_goes_through;
      [|congruence| congruence |congruence|done
       |by rewrite Hst', (unresolved_dom s s' _ _ Hdom)].
    rewrite Hst', Hq3.
    rewrite (set_result_stored _ _ _ _ p');
      [|congruence..|by apply (store_again _ _ _ Hp')].
    eexists. split; [done|]. simpl. rewrite Hs1. simpl. apply put_param_twice.
Qed.

(** ** What a whole run touches *)

Lemma try_copy_frame src dst pname s x s' e :
  _try_copy_by_name src dst pname s = (x, s') →
  e ≠ dst → elements s' !! e = elements s !! e.
Proof.
  intros H Hne. revert H.
  destruct (try_copy_inv src dst pname s)
    as [[_ ->]|[(_ & _ & ->)|(_ & i & j & psrc & pdst & _ & _ & _ & _ & ->)]];
    [by intros [= _ <-]..|].
  intros [->|[(v & ->)|(v & p' & _ & _ & ->)]]%copy_found_state; [done..|].
  simpl. by apply put_param_lookup_ne.
Qed.

Lemma field_calls_frame source tgt names s e :
  e ≠ tgt →
  elements (field_calls source tgt names s).2 !! e = elements s !! e.
Proof.
  intros Hne. revert s. induction names as [|pname rest IH]; intros s; simpl;
    [done|].
  destruct (_try_copy_by_name source tgt pname s) as [[[ok why]|msg] s1] eqn:E.
  - pose proof (try_copy_frame _ _ _ _ _ _ e E Hne) as <-.
    specialize (IH s1). by destruct (field_calls source tgt rest s1).
  - simpl. by eapply try_copy_frame.
Qed.

Lemma target_calls_frame source tids names s e :
  e ∉ tids →
  elements (target_calls source tids names s).2 !! e = elements s !! e.
Proof.
  revert s. induction tids as [|tid rest IH]; intros s Hne; simpl; [done|].
  apply not_elem_of_cons in Hne as [Hne Hrest].
  destruct (GetElement s tid) as [tgt|] eqn:Hg.
  - assert (tgt = tid) as ->.
    { unfold GetElement in Hg. by destruct (decide _); simplify_eq. }
    pose proof (field_calls_frame source tid names s e Hne) as Hf.
    destruct (field_calls source tid names s) as [cs s1]. simpl in Hf.
    specialize (IH s1 Hrest).
    destruct (target_calls source rest names s1) as [gs s2]. simpl in *.
    congruence.
  - specialize (IH s Hrest).
    by destruct (target_calls source rest names s) as [gs s2].
Qed.

(** X13: the apply loop always returns, the document holds the same element
    ids afterwards, and every element that is not among the target ids is
    as before. *)
Theorem apply_copy_touches_only_targets s source target_ids picked_names r :
  ∃ r' s', apply_copy source target_ids picked_names r s = (Ok r', s')
    ∧ dom (elements s') = dom (elements s)
    ∧ ∀ e, e ∉ target_ids → elements s' !! e = elements s !! e.
Proof.
  rewrite apply_copy_calls. eexists _, _. split; [done|]. split.
  - apply target_calls_shape.
  - intros e He. by apply target_calls_frame.
Qed.

(** ** The picking loop, continued *)

Lemma list_remove_subseteq e l : list_remove e l ⊆ l.
Proof. intros x. apply elem_of_list_remove. Qed.

Lemma pick_targets_resolve s source evs t :
  Forall (λ tid, is_Some (elements s !! tid)) t →
  Forall (λ tid, is_Some (elements s !! tid))
    (picked_ids (pick_targets s source evs t)).
Proof.
  revert t. induction evs as [|[r|ex] evs IH]; intros t Ht; simpl.
  - done.
  - destruct (GetElement s r) as [e|] eqn:Hg; [|by apply IH].
    destruct (decide (e = source)); [by apply IH|].
    destruct (decide (e ∈ t)).
    + apply IH. rewrite Forall_forall in *. intros x Hx.
      by apply Ht, (elem_of_list_remove x e).
    + apply IH. apply Forall_app. split; [done|]. constructor; [|done].
      unfold GetElement in Hg. by destruct (decide _); simplify_eq.
  - by destruct (_is_cancel ex).
Qed.

Lemma count_resolves_all s tids :
  Forall (λ tid, is_Some (elements s !! tid)) tids →
  count (resolves s) tids = length tids.
Proof.
  induction 1 as [|tid tids Ht _ IH]; [done|].
  rewrite count_cons, IH. unfold resolves, GetElement.
  by rewrite decide_True by done.
Qed.

(** X14: every id the picking loop collects is an element of the document;
    with those targets the apply loop makes one counted invocation per
    selected name and target, counts every target as updated or skipped,
    and leaves the source element as it was. *)
Theorem picked_targets_are_all_processed s source evs picked_names :
  let target_ids := picked_ids (pick_targets s source evs []) in
  Forall (λ tid, is_Some (elements s !! tid)) target_ids
  ∧ ∃ r s',
      apply_copy source target_ids picked_names run0 s = (Ok r, s')
      ∧ sets_ok r + sets_fail r = length picked_names * length target_ids
      ∧ elem_updated r + elem_skipped r = length target_ids
      ∧ elements s' !! source = elements s !! source.
Proof.
  intros target_ids.
  assert (Forall (λ tid, is_Some (elements s !! tid)) target_ids) as Hres
    by (apply pick_targets_resolve; constructor).
  split; [done|]. rewrite apply_copy_calls.
  destruct (target_calls_shape source target_ids picked_names s) as [Hall _].
  destruct (groups_length _ _ _ _ Hall) as [Hlen Hcalls].
  eexists _, _. split; [done|]. unfold tally_groups, run0.
  cbn [sets_ok sets_fail elem_updated elem_skipped Nat.add].
  split_and!.
  - rewrite <- (count_resolves_all s target_ids Hres), <- Hcalls.
    apply (count_split call_ok).
  - by rewrite count_split.
  - apply target_calls_frame.
    by destruct (pick_targets_inv s source evs [] (not_elem_of_nil _) (NoDup_nil_2)).
Qed.

Lemma list_remove_app_last e l :
  e ∉ l → list_remove e (l ++ [e]) = l.
Proof.
  induction l as [|y l IH]; simpl; intros He.
  - by rewrite decide_True.
  - apply not_elem_of_cons in He as [Hne He].
    rewrite decide_False by done. by rewrite IH.
Qed.

Lemma list_remove_Permutation e l :
  e ∈ l → e :: list_remove e l ≡ₚ l.
Proof.
  induction l as [|y l IH]; simpl; [by intros ?%elem_of_nil|].
  destruct (decide (e = y)) as [->|Hne]; [done|].
  intros [?|Hin]%elem_of_cons; [done|].
  rewrite perm_swap. by rewrite IH.
Qed.

Lemma elem_of_list_remove_NoDup e l : NoDup l → e ∉ list_remove e l.
Proof.
  induction 1 as [|y l Hy Hl IH]; simpl; [apply not_elem_of_nil|].
  destruct (decide (e = y)) as [->|Hne]; [done|].
  apply not_elem_of_cons. by split.
Qed.

(** X15: a pick of an element of the document other than the source removes
    it from the target list when it is there and appends it otherwise;
    picking it twice in a row gives back the same targets, up to order. *)
Theorem picking_twice_restores_the_targets s source r evs t :
  is_Some (elements s !! r) → r ≠ source → NoDup t →
  ∃ t', t' ≡ₚ t
    ∧ pick_targets s source (Picked r :: Picked r :: evs) t
      = pick_targets s source evs t'
    ∧ pick_targets s source (Picked r :: evs) t
      = pick_targets s source evs
          (if decide (r ∈ t) then list_remove r t else t ++ [r]).
Proof.
  intros Hr Hne Hnd.
  assert (GetElement s r = Some r) as Hg
    by (unfold GetElement; by rewrite decide_True).
  simpl. rewrite !Hg. destruct (decide (r = source)); [done|].
  destruct (decide (r ∈ t)) as [Hin|Hnin].
  - rewrite (decide_False (P := r ∈ list_remove r t))
      by (by apply elem_of_list_remove_NoDup).
    exists (list_remove r t ++ [r]). split_and!; [|done..].
    rewrite <- (list_remove_Permutation r t Hin) at 2.
    by rewrite Permutation_app_comm.
  - rewrite (decide_True (P := r ∈ t ++ [r]))
      by (rewrite elem_of_app, list_elem_of_singleton; by right).
    exists t. by rewrite list_remove_app_last.
Qed.

(** ** The dropdown *)

Lemma list_ascii_app (a b : string) :
  list_ascii_of_string (a +:+ b)
  = list_ascii_of_string a ++ list_ascii_of_string b.
Proof. induction a as [|c a IH]; simpl; [done|]. by rewrite IH. Qed.

Lemma list_ascii_inj (a b : string) :
  list_ascii_of_string a = list_ascii_of_string b → a = b.
Proof.
  intros H. rewrite <- (string_of_list_ascii_of_string a),
    <- (string_of_list_ascii_of_string b). by rewrite H.
Qed.

Lemma string_app_tails (n1 n2 x1 x2 : string) :
  n1 +:+ x1 = n2 +:+ x2 →
  list_ascii_of_string x1 `suffix_of` list_ascii_of_string x2
  ∨ list_ascii_of_string x2 `suffix_of` list_ascii_of_string x1.
Proof.
  intros H. apply (f_equal list_ascii_of_string) in H.
  rewrite !list_ascii_app in H.
  apply (suffix_weak_total _ _
           (list_ascii_of_string n1 ++ list_ascii_of_string x1)).
  - by apply suffix_app_r.
  - rewrite H. by apply suffix_app_r.
Qed.

Lemma string_app_inv_tail (n1 n2 x : string) : n1 +:+ x = n2 +:+ x → n1 = n2.
Proof.
  intros H. apply (f_equal list_ascii_of_string) in H.
  rewrite !list_ascii_app in H. apply app_inv_tail in H.
  by apply list_ascii_inj.
Qed.

Lemma not_suffix (l k : list ascii) :
  bool_decide (l `suffix_of` k) = false → ¬ l `suffix_of` k.
Proof. apply bool_decide_eq_false. Qed.

(** A label determines the name, the storage type and the flag. *)
Lemma display_label_inj n1 n2 (t1 t2 : DB.StorageType.t) (b1 b2 : bool) :
  display_label n1 (_storage_label t1) (if b1 then "RO" else "RW")
  = display_label n2 (_storage_label t2) (if b2 then "RO" else "RW") →
  n1 = n2 ∧ t1 = t2 ∧ b1 = b2.
Proof.
  unfold display_label. intros H.
  destruct (string_app_tails _ _ _ _ H) as [Hs|Hs]; revert H Hs;
    destruct t1, t2, b1, b2; simpl; intros H Hs;
    first [ by apply string_app_inv_tail in H
          | exfalso; revert Hs; apply not_suffix; vm_compute; reflexivity ].
Qed.

Lemma catalogue_lookup_entry s source k d :
  _build_source_param_map s source !! k = Some d →
  ∃ p, catalogue_entry p = Some (k, d).
Proof.
  unfold _build_source_param_map. rewrite map_loop_lookup, lookup_empty.
  intros (i & p & _ & Hp & _)%first_entry_Some. eauto.
Qed.

Lemma catalogue_entry_display p k d :
  catalogue_entry p = Some (k, d) →
  display d = display_label (name d) (_storage_label (StorageType p))
                (if IsReadOnly p then "RO" else "RW").
Proof.
  unfold catalogue_entry. destruct (p_Definition_Name p) as [raw|]; [|done].
  destruct (_ || _); [done|]. by intros [= <- <-].
Qed.

Lemma catalogue_display_inj s source k1 k2 d1 d2 :
  _build_source_param_map s source !! k1 = Some d1 →
  _build_source_param_map s source !! k2 = Some d2 →
  display d1 = display d2 → k1 = k2.
Proof.
  intros (p1 & H1)%catalogue_lookup_entry (p2 & H2)%catalogue_lookup_entry Hd.
  rewrite (catalogue_entry_display _ _ _ H1),
    (catalogue_entry_display _ _ _ H2) in Hd.
  apply display_label_inj in Hd as (Hn & _ & _).
  apply catalogue_entry_key in H1 as (<- & _), H2 as (<- & _). by rewrite Hn.
Qed.

(** X16: two entries of the source catalogue with the same dropdown label
    are the same entry. *)
Theorem dropdown_label_identifies_parameter s source k1 k2 d1 d2 :
  _build_source_param_map s source !! k1 = Some d1 →
  _build_source_param_map s source !! k2 = Some d2 →
  display d1 = display d2 →
  k1 = k2 ∧ d1 = d2.
Proof.
  intros H1 H2 Hd.
  assert (k1 = k2) as -> by (by eapply catalogue_display_inj).
  split; [done|]. congruence.
Qed.

Lemma common_keys_in_catalogue s source tids k :
  k ∈ common_keys s source tids →
  is_Some (_build_source_param_map s source !! k).
Proof.
  unfold common_keys. rewrite narrow_elem. intros [Hk _].
  by apply elem_of_dom.
Qed.

Lemma display_items_Ok (m : gmap string ParameterDescriptor) keys :
  (∀ k, k ∈ keys → is_Some (m !! k)) →
  ∃ items, display_items m keys = Ok items
    ∧ Forall2 (λ k item, ∃ d, m !! k = Some d ∧ item = display d) keys items.
Proof.
  induction keys as [|k keys IH]; intros Hall; simpl.
  { exists []. by split. }
  destruct (Hall k) as [d Hd]; [by left|]. unfold getitem. rewrite Hd.
  destruct IH as (items & -> & Hf); [intros; apply Hall; by right|].
  exists (display d :: items). split; [done|]. constructor; eauto.
Qed.

Lemma common_keys_sorted_perm (ck : gset string) :
  common_keys_sorted ck ≡ₚ base.elements ck.
Proof. apply merge_sort_Permutation. Qed.

Lemma elem_of_common_keys_sorted (ck : gset string) k :
  k ∈ common_keys_sorted ck ↔ k ∈ ck.
Proof. by rewrite common_keys_sorted_perm, elem_of_elements. Qed.

(** X17: the common keys are listed in ascending order without repetition,
    the dropdown items are built without a missing key, one per common
    key, and no label occurs twice. *)
Theorem dropdown_lists_each_common_parameter_once s source target_ids :
  let src_map := _build_source_param_map s source in
  let keys := common_keys_sorted (common_keys s source target_ids) in
  Sorted String.le keys
  ∧ NoDup keys
  ∧ (∀ k, k ∈ keys ↔ k ∈ common_keys s source target_ids)
  ∧ ∃ items, display_items src_map keys = Ok items
      ∧ length items = size (common_keys s source target_ids)
      ∧ NoDup items
      ∧ Forall2 (λ k item, ∃ d, src_map !! k = Some d ∧ item = display d)
          keys items.
Proof.
  intros src_map keys.
  assert (NoDup keys) as Hnd.
  { unfold keys. rewrite common_keys_sorted_perm. apply NoDup_elements. }
  split_and!.
  - apply Sorted_merge_sort. apply _.
  - done.
  - apply elem_of_common_keys_sorted.
  - destruct (display_items_Ok src_map keys) as (items & Hi & Hf).
    { intros k Hk%elem_of_common_keys_sorted.
      by eapply common_keys_in_catalogue. }
    exists items. split_and!; [done| | |done].
    + rewrite <- (Forall2_length _ _ _ Hf). unfold keys.
      by rewrite common_keys_sorted_perm.
    + clear Hi. induction Hf as [|k item ks its (d & Hd & ->) Hf IH];
        [constructor|].
      apply NoDup_cons in Hnd as [Hk Hnd]. constructor; [|by apply IH].
      intros Hin. apply Hk.
      apply (list_elem_of_lookup_1 its) in Hin as [i Hi].
      destruct (Forall2_lookup_r _ _ _ _ _ Hf Hi) as (k' & Hk' & d' & Hd' & Heq).
      assert (k = k') as -> by (by eapply catalogue_display_inj).
      by eapply list_elem_of_lookup_2.
Qed.

Lemma picked_names_loop_Ok (m : gmap string ParameterDescriptor)
    (chosen : list string) (ps : gset string) keys acc :
  (∀ k, k ∈ keys → is_Some (m !! k)) →
  (∀ k d, m !! k = Some d → lower (name d) = k) →
  (∀ k d, k ∈ keys → m !! k = Some d → display d ∈ ps ↔ k ∈ chosen) →
  ∃ names, picked_names_loop m keys ps acc = Ok (acc ++ names)
    ∧ lower <$> names = filter (λ k, k ∈ chosen) keys
    ∧ Forall (λ n, ∃ d, m !! lower n = Some d ∧ name d = n) names.
Proof.
  revert acc. induction keys as [|k keys IH]; intros acc Hall Hkey Hiff; simpl.
  { exists []. by rewrite app_nil_r. }
  destruct (Hall k) as [d Hd]; [by left|]. unfold getitem. rewrite Hd.
  assert (∀ k0, k0 ∈ keys → is_Some (m !! k0)) as Hall'
    by (intros; apply Hall; by right).
  assert (∀ k0 d0, k0 ∈ keys → m !! k0 = Some d0 → display d0 ∈ ps ↔ k0 ∈ chosen)
    as Hiff' by (intros ?? ?; apply Hiff; by right).
  destruct (decide (display d ∈ ps)) as [Hin|Hnin].
  - destruct (IH (acc ++ [name d]) Hall' Hkey Hiff') as (names & -> & Hl & Hf).
    exists (name d :: names). split_and!.
    + by rewrite <- app_assoc.
    + rewrite fmap_cons, (Hkey k d Hd), filter_cons_True, Hl; [done|].
      by apply (Hiff k d); [left|..].
    + constructor; [|done]. exists d. by rewrite (Hkey k d Hd).
  - destruct (IH acc Hall' Hkey Hiff') as (names & -> & Hl & Hf).
    exists names. split_and!; [done| |done].
    rewrite filter_cons_False; [done|].
    intros Hc. apply Hnin. by apply (Hiff k d); [left|..].
Qed.

(** X18: when the picked labels are those of a chosen part of the common
    keys, the loop over the sorted keys returns, without a missing key,
    the names of exactly the chosen keys in key order; each name is
    already clean, not blank and not blocked. *)
Theorem picked_labels_give_back_the_chosen_names s source target_ids
    (chosen picked_display : list string) :
  let src_map := _build_source_param_map s source in
  let keys := common_keys_sorted (common_keys s source target_ids) in
  chosen ⊆ keys →
  display_items src_map chosen = Ok picked_display →
  ∃ picked_names,
    pick_names src_map keys picked_display = Ok picked_names
    ∧ lower <$> picked_names = filter (λ k, k ∈ chosen) keys
    ∧ Forall (λ n, _clean (Some n) = n
                   ∧ (String.eqb n "" || _is_blocked (Some n)) = false
                   ∧ ∃ d, src_map !! lower n = Some d ∧ name d = n)
        picked_names.
Proof.
  intros src_map keys Hsub Hdisp.
  assert (∀ k, k ∈ keys → is_Some (src_map !! k)) as Hall.
  { intros k Hk%elem_of_common_keys_sorted.
    by eapply common_keys_in_catalogue. }
  assert (∀ k d, src_map !! k = Some d →
            lower (name d) = k ∧ strip (name d) = name d ∧ name d ≠ ""
            ∧ _is_blocked (Some (name d)) = false) as Hkey.
  { intros k d (p & Hp)%catalogue_lookup_entry. by eapply catalogue_entry_key. }
  destruct (display_items_Ok src_map chosen) as (items & Hi & Hf).
  { intros k Hk. by apply Hall, Hsub. }
  assert (items = picked_display) as -> by congruence.
  destruct (picked_names_loop_Ok src_map chosen (list_to_set picked_display)
              keys []) as (names & Hn & Hl & Hnames).
  - done.
  - intros k d Hd. by apply Hkey.
  - intros k d Hk Hd. rewrite elem_of_list_to_set. split.
    + intros Hin. apply list_elem_of_lookup_1 in Hin as [i Hi'].
      destruct (Forall2_lookup_r _ _ _ _ _ Hf Hi') as (k' & Hk' & d' & Hd' & Heq).
      assert (k = k') as -> by (by eapply catalogue_display_inj).
      by eapply list_elem_of_lookup_2.
    + intros Hin. apply list_elem_of_lookup_1 in Hin as [i Hi'].
      destruct (Forall2_lookup_l _ _ _ _ _ Hf Hi') as (item & Hitem & d' & Hd' & ->).
      assert (d' = d) as -> by congruence.
      by eapply list_elem_of_lookup_2.
  - exists names. split_and!; [done..|].
    eapply Forall_impl; [exact Hnames|]. intros n (d & Hd & <-).
    destruct (Hkey _ _ Hd) as (_ & Hs & Hne & Hb).
    split_and!.
    + unfold _clean. simpl. done.
    + apply orb_false_iff. split; [|done].
      by destruct (String.eqb_spec (name d) "").
    + eauto.
Qed.

(** ** Manual extras *)

Lemma extras_loop_spec xs picked_names :
  ∃ added,
    extras_loop xs picked_names = picked_names ++ added
    ∧ Forall (λ n, _clean (Some n) = n ∧ n ≠ ""
                   ∧ _is_blocked (Some n) = false) added
    ∧ (NoDup (lower <$> picked_names) →
       NoDup (lower <$> (picked_names ++ added)))
    ∧ ∀ x, x ∈ xs → _clean (Some x) ≠ "" →
           _is_blocked (Some (_clean (Some x))) = false →
           lower (_clean (Some x)) ∈ (lower <$> (picked_names ++ added)).
Proof.
  revert picked_names. induction xs as [|x xs IH]; intros picked_names; simpl.
  { exists []. rewrite app_nil_r. split_and!; try done.
    intros ? []%elem_of_nil. }
  destruct (String.eqb_spec (_clean (Some x)) "") as [He|He]; simpl.
  { destruct (IH picked_names) as (added & -> & Hf & Hnd & Hall).
    exists added. split_and!; try done.
    intros y [->|Hy]%elem_of_cons; [by intros ?|by apply Hall]. }
  destruct (_is_blocked (Some (_clean (Some x)))) eqn:Hb; simpl.
  { destruct (IH picked_names) as (added & -> & Hf & Hnd & Hall).
    exists added. split_and!; try done.
    intros y [->|Hy]%elem_of_cons; [intros _ ?; congruence|by apply Hall]. }
  destruct (decide (lower (_clean (Some x)) ∉ (lower <$> picked_names)))
    as [Hnew|Hold].
  - destruct (IH (picked_names ++ [_clean (Some x)]))
      as (added & -> & Hf & Hnd & Hall).
    exists (_clean (Some x) :: added). rewrite <- app_assoc. simpl.
    split_and!; try done.
    + constructor; [|done]. split_and!; try done. apply clean_idem.
    + intros H. rewrite <- app_assoc in Hnd. apply Hnd.
      rewrite fmap_app. apply NoDup_app. split_and!; [done| |].
      * intros k Hk ->%list_elem_of_singleton. done.
      * apply NoDup_singleton.
    + rewrite <- app_assoc in Hall. simpl in Hall.
      intros y [->|Hy]%elem_of_cons; [|by apply Hall].
      intros _ _. rewrite fmap_app, elem_of_app. right. by left.
  - apply dec_stable in Hold.
    destruct (IH picked_names) as (added & -> & Hf & Hnd & Hall).
    exists added. split_and!; try done.
    intros y [->|Hy]%elem_of_cons; [|by apply Hall].
    intros _ _. rewrite fmap_app, elem_of_app. by left.
Qed.

(** X19: the manual extras only append to the picked names; every appended
    name is clean, not blank and not blocked; names that were distinct up
    to case stay distinct up to case; and every usable piece of the input
    ends up in the list, up to case. *)
Theorem add_extras_appends_new_usable_names extra picked_names :
  ∃ added,
    add_extras extra picked_names = picked_names ++ added
    ∧ Forall (λ n, _clean (Some n) = n ∧ n ≠ ""
                   ∧ _is_blocked (Some n) = false) added
    ∧ (NoDup (lower <$> picked_names) →
       NoDup (lower <$> (picked_names ++ added)))
    ∧ ∀ e x, extra = Some e → e ≠ "" → x ∈ split_comma e →
             _clean (Some x) ≠ "" →
             _is_blocked (Some (_clean (Some x))) = false →
             lower (_clean (Some x)) ∈ (lower <$> (picked_names ++ added)).
Proof.
  unfold add_extras. destruct extra as [e|].
  - destruct (String.eqb_spec e "") as [->|Hne].
    + exists []. rewrite app_nil_r. split_and!; try done.
      intros ?? [= <-]. done.
    + destruct (extras_loop_spec (split_comma e) picked_names)
        as (added & -> & Hf & Hnd & Hall).
      exists added. split_and!; try done.
      intros ?? [= <-] _. apply Hall.
  - exists []. rewrite app_nil_r. split_and!; try done.
Qed.

End Proofs.

(** * The script on the example documents *)

#[global] Existing Instance ascii_text.

Example scenario_names :
  _param_names_lower Fixtures.scenario 2 = {[ "comments"; "mark" ]}.
Proof. apply (bool_decide_unpack _). vm_compute. exact I. Qed.

Example scenario_common :
  common_keys Fixtures.scenario 1 [2%Z] = {[ "comments" ]}.
Proof. apply (bool_decide_unpack _). vm_compute. exact I. Qed.

Example scenario_copy :
  (_try_copy_by_name 1 2 "Comments" Fixtures.scenario).1 = Ok (true, "").
Proof. vm_compute. reflexivity. Qed.

Example scenario_blocked :
  _try_copy_by_name 1 2 "Arbeitsebene" Fixtures.scenario
  = (Ok (false, "blocked/empty"), Fixtures.scenario).
Proof. vm_compute. reflexivity. Qed.

Example mixed_width :
  _try_copy_by_name 1 2 "Width" Fixtures.mixed
  = (Ok (false, "type mismatch"), Fixtures.mixed).
Proof. vm_compute. reflexivity. Qed.

Example mixed_mark :
  _try_copy_by_name 1 2 " Mark " Fixtures.mixed
  = (Ok (false, "read-only"), Fixtures.mixed).
Proof. vm_compute. reflexivity. Qed.

Example mixed_host :
  _try_copy_by_name 1 2 "Host" Fixtures.mixed
  = (Ok (false, "elementid not in doc"), Fixtures.mixed).
Proof. vm_compute. reflexivity. Qed.

Example mixed_sealed :
  _try_copy_by_name 1 2 "Sealed" Fixtures.mixed
  = (Ok (false, "read refused"), Fixtures.mixed).
Proof. vm_compute. reflexivity. Qed.

Example mixed_locked :
  (_try_copy_by_name 1 2 "Locked" Fixtures.mixed).1
  = Ok (false, "write refused").
Proof. vm_compute. reflexivity. Qed.

(** The host declines to set Frozen on 2: the script reports success and
    the target keeps its value. *)
Example mixed_frozen :
  (_try_copy_by_name 1 2 "Frozen" Fixtures.mixed).1 = Ok (true, "")
  ∧ elements (_try_copy_by_name 1 2 "Frozen" Fixtures.mixed).2
    = elements Fixtures.mixed
  ∧ (read_by_name 1 "Frozen" Fixtures.mixed).1 = Ok (PyInt 7)
  ∧ (read_by_name 2 "Frozen"
       (_try_copy_by_name 1 2 "Frozen" Fixtures.mixed).2).1 = Ok (PyInt 0).
Proof. split_and!; vm_compute; reflexivity. Qed.

(** Reading Gone on 1 raises, and the text of the exception is the reason. *)
Example mixed_gone :
  _get_param_value (1%Z, 9) Fixtures.mixed = (Raise "missing", Fixtures.mixed)
  ∧ _try_copy_by_name 1 2 "Gone" Fixtures.mixed
    = (Ok (false, "missing"), Fixtures.mixed).
Proof. split; vm_compute; reflexivity. Qed.

(** Of the three spellings of Mark only the first is recorded. *)
Example repeated_catalogue :
  dom (_build_source_param_map Fixtures.repeated 1) = {[ "mark"; "note" ]}
  ∧ _build_source_param_map Fixtures.repeated 1 !! "mark"
    = Some {| name := "Mark"; display := "Mark   [String | RW]" |}.
Proof.
  split; [|vm_compute; reflexivity].
  apply (bool_decide_unpack _). vm_compute. exact I.
Qed.

Example mixed_apply :
  (apply_copy 1 [2; 9]%Z ["Width"; "Count"; "Locked"; "Nope"] run0 Fixtures.mixed).1
  = Ok {| elem_updated := 1; elem_skipped := 1; sets_ok := 1; sets_fail := 3;
          fail_samples := ["Width -> type mismatch"; "Nope -> missing"] |}.
Proof. vm_compute. reflexivity. Qed.


(** ** The theorems at work on the example documents *)

Lemma failed_copy_leaves_destination_witness :
  _try_copy_by_name 1 2 "Locked" Fixtures.mixed
  = (Ok (false, "write refused"),
     journal (2%Z, 6) (PyInt 5) Fixtures.mixed)
  ∧ elements (journal (2%Z, 6) (PyInt 5) Fixtures.mixed)
    = elements Fixtures.mixed
  ∧ elem_Parameters (journal (2%Z, 6) (PyInt 5) Fixtures.mixed) 2
    = elem_Parameters Fixtures.mixed 2.
Proof.
  split; [vm_compute; reflexivity|].
  apply (failed_copy_leaves_destination Fixtures.mixed 1 2 "Locked"
           "write refused").
  vm_compute. reflexivity.
Defined.

Lemma type_mismatch_never_writes_witness :
  _try_copy_by_name 1 2 "Width" Fixtures.mixed
  = (Ok (false, "type mismatch"), Fixtures.mixed).
Proof.
  exact (type_mismatch_never_writes (text := ascii_text)
           Fixtures.mixed 1 2 "Width"
           (1%Z, 0) (2%Z, 0)
           (Fixtures.length_ "Width" 2.5%float) (Fixtures.number "Width" 4)
           ltac:(vm_compute; reflexivity) ltac:(vm_compute; reflexivity)
           ltac:(vm_compute; reflexivity) ltac:(vm_compute; reflexivity)
           ltac:(simpl; discriminate)).
Defined.

(** Height differs in type between 1 and 2, yet the reason is the target's
    being read-only: the reason is not always "type mismatch". *)
Lemma mismatch_reason_counterexample :
  ¬ mismatch_reason_exact Fixtures.mixed 1 2 "Height".
Proof.
  intros H.
  specialize (H (1%Z, 7) (2%Z, 7)
                (Fixtures.length_ "Height" 3%float)
                (Fixtures.param (Some "Height") DB.StorageType.Integer true)).
  assert ((_try_copy_by_name 1 2 "Height" Fixtures.mixed).1
          = Ok (false, "read-only")) as E by (vm_compute; reflexivity).
  rewrite E in H.
  discriminate H; try (vm_compute; reflexivity). simpl. discriminate.
Qed.


Example count_round_trip :
  (read_by_name 2 "Count" (_try_copy_by_name 1 2 "Count" Fixtures.mixed).2).1
  = Ok (PyInt 3).
Proof. vm_compute. reflexivity. Qed.


Lemma param_names_lower_never_blocked_witness :
  "comments" ∈ _param_names_lower Fixtures.scenario 2
  ∧ _is_blocked (Some "comments") = false.
Proof.
  assert ("comments" ∈ _param_names_lower Fixtures.scenario 2) as H.
  { apply (bool_decide_unpack _). vm_compute. exact I. }
  split; [exact H|].
  exact (proj1 (proj2 (param_names_lower_never_blocked
                         Fixtures.scenario 2 "comments" H))).
Defined.

Lemma field_failures_never_abort_witness :
  _try_copy_by_name 1 2 "Sealed" Fixtures.mixed
  = (Ok (false, "read refused"), Fixtures.mixed).
Proof.
  apply (proj1 (proj2 (field_failures_never_abort Fixtures.mixed 1))
           2%Z "Sealed" (1%Z, 5) (2%Z, 5)).
  - unfold reaches_copy. split_and!; try (vm_compute; reflexivity).
    exists DB.StorageType.Integer. split; vm_compute; reflexivity.
  - vm_compute. reflexivity.
Defined.

Lemma run_aggregation_witness :
  ∃ r s',
    apply_copy 1 [2; 9]%Z ["Width"; "Count"; "Locked"; "Nope"; "Sealed"] run0
      Fixtures.mixed = (Ok r, s')
    ∧ sets_ok r + sets_fail r = 5 ∧ elem_updated r + elem_skipped r = 2
    ∧ fail_samples r = ["Width -> type mismatch"; "Nope -> missing"].
Proof.
  destruct (run_aggregation Fixtures.mixed 1 [2; 9]%Z
              ["Width"; "Count"; "Locked"; "Nope"; "Sealed"])
    as (r & s' & Hrun & _ & _ & _ & Hsets & _ & _ & Helems & _ & Hsamples & _).
  exists r, s'. split; [exact Hrun|].
  split; [exact Hsets|]. split; [exact Helems|exact Hsamples].
Defined.

(** The exception raised by the read of Gone carries the text "missing",
    and the report quotes it. *)
Lemma exception_message_sampled_counterexample :
  ¬ exception_messages_never_sampled Fixtures.mixed 1 2 "Gone".
Proof.
  intros H.
  specialize (H (1%Z, 9) (2%Z, 9) "missing" Fixtures.mixed
                {| elem_updated := 0; elem_skipped := 1;
                   sets_ok := 0; sets_fail := 1;
                   fail_samples := ["Gone -> missing"] |}
                Fixtures.mixed).
  discriminate H.
  - unfold reaches_copy. split_and!; try (vm_compute; reflexivity).
    exists DB.StorageType.Integer. split; vm_compute; reflexivity.
  - vm_compute. reflexivity.
  - vm_compute. reflexivity.
Qed.

(** On the element that spells Mark three ways, the theorem gives the entry
    from the first of them. *)
Lemma source_catalogue_first_wins_witness :
  _build_source_param_map Fixtures.repeated 1 !! "mark"
  = Some {| name := "Mark"; display := "Mark   [String | RW]" |}.
Proof.
  apply (proj2 (proj1 (source_catalogue_first_wins (text := ascii_text)
                         Fixtures.repeated 1 "mark"
                         {| name := "Mark";
                            display := "Mark   [String | RW]" |}))).
  exists 0, (Fixtures.text "Mark" (Some "first")).
  split_and!; try (vm_compute; reflexivity).
  - exists (Some "Mark"). split_and!; try (vm_compute; reflexivity).
    discriminate.
  - intros j p' n' Hj. lia.
Defined.

Lemma common_keys_permutation_witness :
  common_keys Fixtures.mixed 1 [2; 9]%Z = common_keys Fixtures.mixed 1 [9; 2]%Z.
Proof.
  apply (common_keys_permutation Fixtures.mixed 1 [2; 9]%Z [9; 2]%Z).
  apply perm_swap.
Defined.

Lemma set_param_value_dispatch_witness :
  _set_param_value (2%Z, 2) PyNone Fixtures.mixed
  = (Ok true,
     {| elements :=
          put_param (2%Z, 2) (Fixtures.text "Note" (Some ""))
            (elements Fixtures.mixed);
        set_calls := [((2%Z, 2), PyStr "")] |})
  ∧ set_argument DB.StorageType.String PyNone ≠ PyNone.
Proof.
  split; [vm_compute; reflexivity|].
  exact (proj1 (proj1 (proj2 (proj2 (set_param_value_dispatch
           Fixtures.mixed (2%Z, 2) (Fixtures.text "Note" (Some "old")) PyNone
           ltac:(vm_compute; reflexivity)))) eq_refl)).
Defined.

(** ** The further properties on the example documents *)

Example split_example : split_comma "a, b,,c" = ["a"; " b"; ""; "c"].
Proof. reflexivity. Qed.
Example sorted_example :
  common_keys_sorted {[ "mark"; "comments"; "Zone" ]} = ["Zone"; "comments"; "mark"].
Proof. vm_compute. reflexivity. Qed.
Example extras_example :
  add_extras (Some " Mark , comments,Arbeitsebene, ,Zone") ["Comments"]
  = ["Comments"; "Mark"; "Zone"].
Proof. vm_compute. reflexivity. Qed.
Lemma blocked_or_blank_name_is_never_copied_witness :
  _is_blocked (Some " bauteilEBENE") = true
  ∧ _try_copy_by_name 1 2 " bauteilEBENE" Fixtures.scenario
    = (Ok (false, "blocked/empty"), Fixtures.scenario).
Proof.
  split; [reflexivity|].
  apply (blocked_or_blank_name_is_never_copied Fixtures.scenario 1 2
           " bauteilEBENE").
  left. reflexivity.
Defined.

Lemma get_param_value_only_reads_witness :
  _get_param_value (1%Z, 0) Fixtures.mixed
  = (Ok (PyFloat 2.5%float), Fixtures.mixed)
  ∧ ∃ x, PyFloat 2.5%float = PyFloat x.
Proof.
  assert (_get_param_value (1%Z, 0) Fixtures.mixed
          = (Ok (PyFloat 2.5%float), Fixtures.mixed)) as H
    by (vm_compute; reflexivity).
  split; [exact H|].
  exact (proj2 (get_param_value_only_reads _ _ _ _ H)
           (Fixtures.length_ "Width" 2.5%float) (PyFloat 2.5%float)
           eq_refl eq_refl).
Defined.

Lemma common_keys_spec_witness :
  "comments" ∈ common_keys Fixtures.scenario 1 [2%Z]
  ∧ "comments" ∈ _param_names_lower Fixtures.scenario 1.
Proof.
  assert ("comments" ∈ common_keys Fixtures.scenario 1 [2%Z]) as H.
  { apply (bool_decide_unpack _). vm_compute. exact I. }
  split; [exact H|].
  exact (proj1 (proj1 (common_keys_spec Fixtures.scenario 1 [2%Z] "comments") H)).
Defined.

Lemma more_targets_fewer_keys_witness :
  common_keys Fixtures.disjoint 1 [3; 2]%Z = ∅.
Proof.
  apply (proj2 (more_targets_fewer_keys Fixtures.disjoint 1 [3; 2]%Z [] 2)).
  - apply (bool_decide_unpack _). vm_compute. exact I.
  - apply (bool_decide_unpack _). vm_compute. exact I.
  - apply (bool_decide_unpack _). vm_compute. exact I.
Defined.

Lemma copy_touches_one_parameter_witness :
  elements (_try_copy_by_name 1 2 "Count" Fixtures.mixed).2 !! 1%Z
  = elements Fixtures.mixed !! 1%Z
  ∧ length (elem_Parameters (_try_copy_by_name 1 2 "Count" Fixtures.mixed).2 2)
    = 10.
Proof.
  destruct (copy_touches_one_parameter Fixtures.mixed 1 2 "Count"
              (_try_copy_by_name 1 2 "Count" Fixtures.mixed).1
              (_try_copy_by_name 1 2 "Count" Fixtures.mixed).2)
    as (Hframe & Hlen & _).
  { vm_compute. reflexivity. }
  split; [apply Hframe; discriminate|exact Hlen].
Defined.

Lemma copy_makes_at_most_one_set_call_witness :
  (true = false
   ∧ set_calls (_try_copy_by_name 1 2 "Count" Fixtures.mixed).2
     = set_calls Fixtures.mixed)
  ∨ ∃ j v,
      LookupParameter 2 (_clean (Some "Count")) Fixtures.mixed
      = (Ok (Some (2%Z, j)), Fixtures.mixed)
      ∧ set_calls (_try_copy_by_name 1 2 "Count" Fixtures.mixed).2
        = set_calls Fixtures.mixed ++ [((2%Z, j), v)].
Proof.
  apply (copy_makes_at_most_one_set_call Fixtures.mixed 1 2 "Count" true "").
  vm_compute. reflexivity.
Defined.

Lemma copy_succeeds_witness :
  ∃ s',
    _try_copy_by_name 1 2 "Count" Fixtures.mixed = (Ok (true, ""), s')
    ∧ set_calls s' = set_calls Fixtures.mixed ++ [((2%Z, 4), PyInt 3)]
    ∧ (SetDeclined (Fixtures.number "Count" 0) = false →
       ∃ p', elements s' = put_param (2%Z, 4) p' (elements Fixtures.mixed)
         ∧ param_at s' (2%Z, 4) = Some p'
         ∧ stored_value p' = PyInt 3)
    ∧ (SetDeclined (Fixtures.number "Count" 0) = true →
       elements s' = elements Fixtures.mixed).
Proof.
  apply (copy_succeeds Fixtures.mixed 1 2 "Count" (1%Z, 4) (2%Z, 4)
           (Fixtures.number "Count" 3) (Fixtures.number "Count" 0)).
  - unfold reaches_copy. split_and!; try (vm_compute; reflexivity).
    exists DB.StorageType.Integer. split; vm_compute; reflexivity.
  - vm_compute. reflexivity.
  - vm_compute. reflexivity.
  - discriminate.
  - reflexivity.
  - reflexivity.
  - discriminate.
Defined.

Lemma copied_reference_resolves_witness :
  ∃ tp v,
    LookupParameter 2 (_clean (Some "Host"))
      (_try_copy_by_name 1 2 "Host" Fixtures.linked).2
    = (Ok (Some tp), (_try_copy_by_name 1 2 "Host" Fixtures.linked).2)
    ∧ set_calls (_try_copy_by_name 1 2 "Host" Fixtures.linked).2
      = set_calls Fixtures.linked ++ [(tp, v)]
    ∧ ∀ i, v = PyElementId i →
        i = DB.ElementId.InvalidElementId
        ∨ is_Some (elements (_try_copy_by_name 1 2 "Host" Fixtures.linked).2
                     !! i).
Proof.
  destruct (copied_reference_resolves Fixtures.linked 1 2 "Host" ""
              (_try_copy_by_name 1 2 "Host" Fixtures.linked).2)
    as (tp & v & Hl & Hc & Hv & _).
  { vm_compute. reflexivity. }
  exists tp, v. split; [exact Hl|]. split; [exact Hc|exact Hv].
Defined.

Lemma copy_is_idempotent_witness :
  ∃ s'',
    _try_copy_by_name 1 2 "Count" (_try_copy_by_name 1 2 "Count" Fixtures.mixed).2
    = (Ok (true, ""), s'')
    ∧ elements s'' = elements (_try_copy_by_name 1 2 "Count" Fixtures.mixed).2.
Proof.
  apply (copy_is_idempotent Fixtures.mixed 1 2 "Count" "").
  vm_compute. reflexivity.
Defined.

Lemma apply_copy_touches_only_targets_witness :
  ∃ r' s',
    apply_copy 1 [2; 9]%Z ["Count"; "Width"] run0 Fixtures.mixed = (Ok r', s')
    ∧ elements s' !! 1%Z = elements Fixtures.mixed !! 1%Z.
Proof.
  destruct (apply_copy_touches_only_targets Fixtures.mixed 1 [2; 9]%Z
              ["Count"; "Width"] run0) as (r' & s' & Hrun & _ & Hframe).
  exists r', s'. split; [exact Hrun|]. apply Hframe.
  apply (bool_decide_unpack _). vm_compute. exact I.
Defined.

Lemma picking_twice_restores_the_targets_witness :
  ∃ t', t' ≡ₚ [] ∧
    pick_targets Fixtures.scenario 1 [Picked 2; Picked 2] []
    = pick_targets Fixtures.scenario 1 [] t'.
Proof.
  destruct (picking_twice_restores_the_targets Fixtures.scenario 1 2 [] [])
    as (t' & Hp & Heq & _).
  - apply (bool_decide_unpack _). vm_compute. exact I.
  - discriminate.
  - apply NoDup_nil_2.
  - exists t'. split; [exact Hp|exact Heq].
Defined.

Lemma dropdown_label_identifies_parameter_witness :
  display {| name := "Comments"; display := "Comments   [String | RW]" |}
  = "Comments   [String | RW]"
  ∧ "comments" = "comments".
Proof.
  split; [reflexivity|].
  exact (proj1 (dropdown_label_identifies_parameter (text := ascii_text)
                  Fixtures.scenario 1
                  "comments" "comments"
                  {| name := "Comments"; display := "Comments   [String | RW]" |}
                  {| name := "Comments"; display := "Comments   [String | RW]" |}
                  ltac:(vm_compute; reflexivity) ltac:(vm_compute; reflexivity)
                  eq_refl)).
Defined.

Lemma picked_labels_give_back_the_chosen_names_witness :
  ∃ picked_names,
    pick_names (_build_source_param_map Fixtures.mixed 1)
      (common_keys_sorted (common_keys Fixtures.mixed 1 [2%Z]))
      ["Count   [Integer | RW]"; "Width   [Double | RW]"]
    = Ok picked_names
    ∧ lower <$> picked_names
      = filter (λ k, k ∈ ["count"; "width"])
          (common_keys_sorted (common_keys Fixtures.mixed 1 [2%Z])).
Proof.
  destruct (picked_labels_give_back_the_chosen_names Fixtures.mixed 1 [2%Z]
              ["count"; "width"]
              ["Count   [Integer | RW]"; "Width   [Double | RW]"])
    as (names & Hn & Hl & _).
  - apply (bool_decide_unpack _). vm_compute. exact I.
  - vm_compute. reflexivity.
  - exists names. split; [exact Hn|exact Hl].
Defined.

Lemma add_extras_appends_new_usable_names_witness :
  ∃ added,
    add_extras (Some " Mark , comments,Arbeitsebene") ["Comments"]
    = ["Comments"] ++ added
    ∧ NoDup (lower <$> (["Comments"] ++ added)).
Proof.
  destruct (add_extras_appends_new_usable_names
              (Some " Mark , comments,Arbeitsebene") ["Comments"])
    as (added & Heq & _ & Hnd & _).
  exists added. split; [exact Heq|]. apply Hnd. apply NoDup_singleton.
Defined.

Example picked_example :
  pick_names (_build_source_param_map Fixtures.mixed 1)
    (common_keys_sorted (common_keys Fixtures.mixed 1 [2%Z]))
    ["Count   [Integer | RW]"; "Width   [Double | RW]"]
  = Ok ["Count"; "Width"].
Proof. vm_compute. reflexivity. Qed.
